(** * Resilience utilities of the Libraries.io MCP server

    A shallow embedding of [src/libraries_io_mcp/utils.py]: the token-bucket
    [RateLimiter], the TTL [MemoryCache], the [RetryHandler] and the
    [HTTPClientHelper] response classifiers, followed by the properties the
    specification states about them.

    Conventions of the embedding.
    - Python [int] is [Z]; Python [float] timestamps and delays are exact
      rationals [Q] (rounding and overflow of IEEE doubles are outside the
      model).
    - [time.time()] reads an external clock: the world carries the infinite
      sequence of readings the process will observe and a counter of the
      readings consumed so far.
    - A coroutine that may wait without bound is run with a fuel counting the
      iterations of its waiting loop; [Pending] is the verdict "still
      suspended when the fuel ran out".
    - An exception escaping a function is the verdict [Raised]. *)

From Stdlib Require Import ZArith QArith List Lia Bool String Ascii.
From Stdlib Require Import DecimalString.
From Stdlib Require Import Permutation.
Import ListNotations.

Set Implicit Arguments.

(** ** Verdicts of a run *)

Inductive pyexn : Type :=
| ZeroDivisionError
| KeyError (key : string).

Inductive outcome (A : Type) : Type :=
| Done (a : A)
| Raised (e : pyexn)
| Pending.

Arguments Done {A} a.
Arguments Raised {A} e.
Arguments Pending {A}.

(** ** The clock *)

Record world : Type := World {
  clock : nat -> Q;      (* the n-th value [time.time()] returns *)
  ticks : nat            (* how many readings were consumed *)
}.

(** [time.time()] *)
Definition time_time (w : world) : Q * world :=
  (clock w (ticks w), World (clock w) (S (ticks w))).

(** Python's [int(x)] on a float: truncation toward zero. *)
Definition py_int (q : Q) : Z := Z.quot (Qnum q) (Zpos (Qden q)).

(** ** RateLimitInfo *)

Record RateLimitInfo : Type := Info {
  info_limit : Z;
  info_remaining : Z;
  info_reset : Q;
  info_used : Z
}.

(** ** RateLimiter *)

Module RateLimiter.

Record t : Type := Make {
  limit : Z;
  window_seconds : Z;
  tokens : Z;
  last_refill : Q
}.

(** What an observer of one limiter sees, in order. *)
Inductive event : Type :=
| EvRefill (tokens_after : Z)
| EvSleep (sleep_time : Q)
| EvConsume (tokens_after : Z).

(** [__init__]: a full bucket, stamped with the current time. *)
Definition init (limit window_seconds : Z) (w : world) : t * world :=
  let (now, w') := time_time w in
  (Make limit window_seconds limit now, w').

(** The refill step, written twice in [acquire] (before the loop and inside
    it).  The division [time_passed / self.window_seconds] raises when the
    window is zero. *)
Definition refill (self : t) (now : Q) : outcome t :=
  let time_passed := now - last_refill self in
  if Qle_bool (inject_Z (window_seconds self)) time_passed then
    Done (Make (limit self) (window_seconds self) (limit self) now)
  else if (window_seconds self =? 0)%Z then
    Raised ZeroDivisionError
  else
    let tokens_to_add :=
      py_int ((time_passed / inject_Z (window_seconds self))
              * inject_Z (limit self)) in
    Done (Make (limit self) (window_seconds self)
               (Z.min (limit self) (tokens self + tokens_to_add)) now).

(** [self.tokens -= tokens] *)
Definition consume (self : t) (n : Z) : t :=
  Make (limit self) (window_seconds self) (tokens self - n) (last_refill self).

(** The [while self.tokens < tokens] loop.  [time_passed] is the value the
    variable holds when the loop condition is tested; [tr] is the trace so
    far. *)
Fixpoint wait (fuel : nat) (self : t) (n : Z) (time_passed : Q)
  (w : world) (tr : list event) : outcome (t * world * list event) :=
  if (tokens self <? n)%Z then
    match fuel with
    | O => Pending
    | S fuel' =>
        let sleep_time := inject_Z (window_seconds self) - time_passed + 1 in
        let (now, w') := time_time w in
        let time_passed' := now - last_refill self in
        match refill self now with
        | Done self' =>
            wait fuel' self' n time_passed' w'
                 (tr ++ [EvSleep sleep_time; EvRefill (tokens self')])
        | Raised e => Raised e
        | Pending => Pending
        end
    end
  else
    let self' := consume self n in
    Done (self', w, tr ++ [EvConsume (tokens self')]).

(** [acquire(tokens)], run by a task that holds the lock throughout. *)
Definition acquire (fuel : nat) (self : t) (n : Z) (w : world)
  : outcome (t * world * list event) :=
  let (now, w') := time_time w in
  let time_passed := now - last_refill self in
  match refill self now with
  | Done self' => wait fuel self' n time_passed w' [EvRefill (tokens self')]
  | Raised e => Raised e
  | Pending => Pending
  end.

(** A sequence of calls, one after the other, each with the same fuel. *)
Fixpoint acquire_all (fuel : nat) (self : t) (reqs : list Z) (w : world)
  : outcome (t * world * list event) :=
  match reqs with
  | [] => Done (self, w, [])
  | n :: reqs' =>
      match acquire fuel self n w with
      | Done (self', w', tr) =>
          match acquire_all fuel self' reqs' w' with
          | Done (self'', w'', tr') => Done (self'', w'', tr ++ tr')
          | Raised e => Raised e
          | Pending => Pending
          end
      | Raised e => Raised e
      | Pending => Pending
      end
  end.

(** [get_info]: the refill is computed but not stored. *)
Definition get_info (self : t) (w : world) : outcome RateLimitInfo * world :=
  let (now, w') := time_time w in
  let time_passed := now - last_refill self in
  let reset := last_refill self + inject_Z (window_seconds self) in
  if Qle_bool (inject_Z (window_seconds self)) time_passed then
    (Done (Info (limit self) (limit self) reset 0), w')
  else if (window_seconds self =? 0)%Z then
    (Raised ZeroDivisionError, w')
  else
    let tokens_to_add :=
      py_int ((time_passed / inject_Z (window_seconds self))
              * inject_Z (limit self)) in
    let remaining := Z.min (limit self) (tokens self + tokens_to_add) in
    (Done (Info (limit self) remaining reset (limit self - remaining)), w').

(** The bound the specification asks of a token count. *)
Definition in_bounds (self : t) (z : Z) : Prop := (0 <= z <= limit self)%Z.


Definition consume_ok (lim : Z) (e : event) : Prop :=
  match e with
  | EvConsume z => (0 <= z <= lim)%Z
  | _ => True
  end.

(** The stamp of the last refill is not ahead of any reading still to
    come. *)
Definition not_ahead (self : t) (w : world) : Prop :=
  forall i, (ticks w <= i)%nat -> last_refill self <= clock w i.

(** An event other than a sleep. *)
Definition no_sleep (e : event) : Prop :=
  match e with EvSleep _ => False | _ => True end.

(** The time elapsed at the [k]-th reading still to come, measured as the
    code measures it: since the reading before, or, for the first one,
    since the stamp of the last refill. *)
Definition elapsed (self : t) (w : world) (k : nat) : Q :=
  clock w (ticks w + k)
  - match k with
    | O => last_refill self
    | S k' => clock w (ticks w + k')
    end.

(** At the [k]-th reading a whole window has gone by. *)
Definition due (self : t) (w : world) (k : nat) : Prop :=
  inject_Z (window_seconds self) <= elapsed self w k.


End RateLimiter.

(** Readings never go backwards. *)
Definition monotone (c : nat -> Q) : Prop := forall i, c i <= c (S i).

(** ** Python dictionaries

    A [dict] keeps its keys in insertion order, and [min] over [items()]
    depends on that order, so a dictionary is an association list: keys are
    unique, assignment to a present key keeps its position, assignment to a
    new key appends. *)

Module PyDict.

Section Dict.
Variable V : Type.

Definition dict : Type := list (string * V).

Definition keys (d : dict) : list string := map fst d.

(** [d.get(k)] *)
Fixpoint get (k : string) (d : dict) : option V :=
  match d with
  | [] => None
  | (k', v) :: d' => if String.eqb k k' then Some v else get k d'
  end.

(** [k in d] *)
Definition mem (k : string) (d : dict) : bool :=
  match get k d with Some _ => true | None => false end.

(** [d[k] = v] *)
Fixpoint set (k : string) (v : V) (d : dict) : dict :=
  match d with
  | [] => [(k, v)]
  | (k', v') :: d' =>
      if String.eqb k k' then (k', v) :: d' else (k', v') :: set k v d'
  end.

(** [del d[k]] on a dictionary that has [k]. *)
Definition del (k : string) (d : dict) : dict :=
  filter (fun kv => negb (String.eqb k (fst kv))) d.

End Dict.

End PyDict.

(** ** JSON values, [json.dumps] and [json.loads]

    The values are those of the float-free fragment: [None], booleans,
    integers, strings, lists and dictionaries with string keys.  A Python
    string is the sequence of its code points; the strings here are those
    whose code points are all below 256, one [ascii] each. *)

Module Json.

#[warnings="-register-all"]
Inductive json : Type :=
| JNull
| JBool (b : bool)
| JInt (z : Z)
| JStr (s : string)
| JList (l : list json)
| JDict (d : list (string * json)).

Definition code (c : ascii) : Z := Z.of_nat (nat_of_ascii c).

Definition char_of (n : Z) : ascii := ascii_of_nat (Z.to_nat n).

(** Lower-case hexadecimal digit. *)
Definition hex_digit (n : Z) : ascii :=
  if (n <? 10)%Z then char_of (48 + n) else char_of (87 + n).

Definition hex2 (n : Z) : string :=
  String (hex_digit (n / 16)) (String (hex_digit (n mod 16)) EmptyString).

(** [str(z)] of an integer *)
Definition decimal (z : Z) : string := NilZero.string_of_int (Z.to_int z).

(** *** [json.dumps(value, sort_keys=True)] *)

(** One character inside a JSON string literal, [ensure_ascii] being on. *)
Definition escape_char (c : ascii) : string :=
  let n := code c in
  if (n =? 34)%Z then String (char_of 92) (String c EmptyString)
  else if (n =? 92)%Z then "\\"
  else if (n =? 10)%Z then "\n"
  else if (n =? 13)%Z then "\r"
  else if (n =? 9)%Z then "\t"
  else if (n =? 8)%Z then "\b"
  else if (n =? 12)%Z then "\f"
  else if ((32 <=? n) && (n <=? 126))%Z then String c EmptyString
  else ("\u00" ++ hex2 n)%string.

Fixpoint escape (s : string) : string :=
  match s with
  | EmptyString => EmptyString
  | String c s' => (escape_char c ++ escape s')%string
  end.

Definition quote (s : string) : string :=
  String (char_of 34) (escape s ++ String (char_of 34) EmptyString).

(** [sorted(items)] on items with distinct keys: ordered by key, keys
    compared code point by code point. *)
Fixpoint insert_item (x : string * string) (l : list (string * string))
  : list (string * string) :=
  match l with
  | [] => [x]
  | y :: l' =>
      if String.leb (fst x) (fst y) then x :: y :: l'
      else y :: insert_item x l'
  end.

Definition sort_items (l : list (string * string))
  : list (string * string) :=
  fold_right insert_item [] l.

Definition render_item (kr : string * string) : string :=
  (quote (fst kr) ++ ": " ++ snd kr)%string.

Fixpoint dumps (j : json) : string :=
  match j with
  | JNull => "null"
  | JBool true => "true"
  | JBool false => "false"
  | JInt z => decimal z
  | JStr s => quote s
  | JList l => ("[" ++ String.concat ", " (map dumps l) ++ "]")%string
  | JDict d =>
      ("{" ++ String.concat ", "
                (map render_item
                   (sort_items
                      (map (fun kv => (fst kv, dumps (snd kv))) d)))
           ++ "}")%string
  end.

(** *** [str(value)] and [repr(value)] *)

Definition printable (n : Z) : bool :=
  (((32 <=? n) && (n <=? 126)) || ((161 <=? n) && negb (n =? 173)))%Z.

Fixpoint contains (c : ascii) (s : string) : bool :=
  match s with
  | EmptyString => false
  | String c' s' => Ascii.eqb c c' || contains c s'
  end.

Definition repr_char (q : ascii) (c : ascii) : string :=
  let n := code c in
  if (Ascii.eqb c q || (n =? 92)%Z)%bool then String (char_of 92) (String c EmptyString)
  else if (n =? 9)%Z then "\t"
  else if (n =? 10)%Z then "\n"
  else if (n =? 13)%Z then "\r"
  else if printable n then String c EmptyString
  else ("\x" ++ hex2 n)%string.

Fixpoint repr_chars (q : ascii) (s : string) : string :=
  match s with
  | EmptyString => EmptyString
  | String c s' => (repr_char q c ++ repr_chars q s')%string
  end.

(** [repr] of a string: single quotes unless the text has a single quote
    and no double quote. *)
Definition repr_str (s : string) : string :=
  let q := if (contains (char_of 39) s && negb (contains (char_of 34) s))%bool
           then char_of 34 else char_of 39 in
  String q (repr_chars q s ++ String q EmptyString).

Fixpoint repr (j : json) : string :=
  match j with
  | JNull => "None"
  | JBool true => "True"
  | JBool false => "False"
  | JInt z => decimal z
  | JStr s => repr_str s
  | JList l => ("[" ++ String.concat ", " (map repr l) ++ "]")%string
  | JDict d =>
      ("{" ++ String.concat ", "
                (map (fun kv => (repr_str (fst kv) ++ ": " ++ repr (snd kv))%string) d)
           ++ "}")%string
  end.

(** [str(value)] *)
Definition str (j : json) : string :=
  match j with
  | JStr s => s
  | _ => repr j
  end.

(** *** Dictionaries as mappings *)

(** Every dictionary inside the value has distinct keys, as every Python
    dictionary does. *)
Fixpoint unique_keys (j : json) : Prop :=
  match j with
  | JList l =>
      (fix all (l : list json) : Prop :=
         match l with
         | [] => True
         | x :: l' => unique_keys x /\ all l'
         end) l
  | JDict d =>
      NoDup (map fst d) /\
      (fix all (d : list (string * json)) : Prop :=
         match d with
         | [] => True
         | kv :: d' => unique_keys (snd kv) /\ all d'
         end) d
  | _ => True
  end.

(** Two values are the same up to the order in which the keys of their
    dictionaries, at any depth, were inserted. *)
Fixpoint same (a b : json) : Prop :=
  match a, b with
  | JNull, JNull => True
  | JBool x, JBool y => x = y
  | JInt x, JInt y => x = y
  | JStr x, JStr y => x = y
  | JList l1, JList l2 =>
      (fix all2 (l1 l2 : list json) : Prop :=
         match l1, l2 with
         | [], [] => True
         | x :: l1', y :: l2' => same x y /\ all2 l1' l2'
         | _, _ => False
         end) l1 l2
  | JDict d1, JDict d2 =>
      List.length d1 = List.length d2 /\
      (fix all (d : list (string * json)) : Prop :=
         match d with
         | [] => True
         | kv :: d' =>
             match PyDict.get (fst kv) d2 with
             | Some v' => same (snd kv) v'
             | None => False
             end /\ all d'
         end) d1
  | _, _ => False
  end.

(** An item of one dictionary has a counterpart under the same key in
    [d2]. *)
Definition matched (d2 : list (string * json)) (kv : string * json) : Prop :=
  exists v', PyDict.get (fst kv) d2 = Some v' /\ same (snd kv) v'.

(** The items of a dictionary with their values serialized. *)
Definition rendered (d : list (string * json)) : list (string * string) :=
  map (fun kv => (fst kv, dumps (snd kv))) d.

(** *** [json.loads] *)

(** A scan either yields a value and the text left, or fails with
    [JSONDecodeError], or meets a document outside the fragment: a float
    literal, a code point above 255, an integer of more than 4300 digits or
    nesting deeper than [max_depth], the last two being where Python raises
    an error other than [JSONDecodeError]. *)
Inductive scan (A : Type) : Type :=
| Scanned (a : A) (rest : string)
| Invalid
| Unmodelled.

Arguments Scanned {A} a rest.
Arguments Invalid {A}.
Arguments Unmodelled {A}.

Definition is_ws (c : ascii) : bool :=
  let n := code c in ((n =? 32) || (n =? 9) || (n =? 10) || (n =? 13))%Z.

Fixpoint skip_ws (s : string) : string :=
  match s with
  | String c s' => if is_ws c then skip_ws s' else s
  | EmptyString => s
  end.

Fixpoint strip_prefix (p s : string) : option string :=
  match p, s with
  | EmptyString, _ => Some s
  | String a p', String b s' =>
      if Ascii.eqb a b then strip_prefix p' s' else None
  | _, _ => None
  end.

Definition is_digit (c : ascii) : bool :=
  ((48 <=? code c) && (code c <=? 57))%Z.

Definition hex_value (c : ascii) : option Z :=
  let n := code c in
  if ((48 <=? n) && (n <=? 57))%Z then Some (n - 48)%Z
  else if ((97 <=? n) && (n <=? 102))%Z then Some (n - 87)%Z
  else if ((65 <=? n) && (n <=? 70))%Z then Some (n - 55)%Z
  else None.

(** The four hexadecimal digits after a backslash-u. *)
Definition hex4 (s : string) : option (Z * string) :=
  match s with
  | String a (String b (String c (String d r))) =>
      match hex_value a, hex_value b, hex_value c, hex_value d with
      | Some x, Some y, Some z, Some t =>
          Some (((x * 16 + y) * 16 + z) * 16 + t, r)%Z
      | _, _, _, _ => None
      end
  | _ => None
  end.

Definition simple_escape (c : ascii) : option ascii :=
  let n := code c in
  if (n =? 34)%Z then Some c            (* quote *)
  else if (n =? 92)%Z then Some c       (* backslash *)
  else if (n =? 47)%Z then Some c       (* slash *)
  else if (n =? 98)%Z then Some (char_of 8)
  else if (n =? 102)%Z then Some (char_of 12)
  else if (n =? 110)%Z then Some (char_of 10)
  else if (n =? 114)%Z then Some (char_of 13)
  else if (n =? 116)%Z then Some (char_of 9)
  else None.

Definition scan_cons (c : ascii) (r : scan string) : scan string :=
  match r with
  | Scanned s rest => Scanned (String c s) rest
  | Invalid => Invalid
  | Unmodelled => Unmodelled
  end.

(** The text of a string literal, the opening quote already read. *)
Fixpoint scan_string (s : string) : scan string :=
  match s with
  | EmptyString => Invalid
  | String c r =>
      if (code c =? 34)%Z then Scanned EmptyString r
      else if (code c =? 92)%Z then
        match r with
        | EmptyString => Invalid
        | String e r' =>
            if (code e =? 117)%Z then
              match r' with
              | String a (String b (String c2 (String d r''))) =>
                  match hex4 r' with
                  | Some (n, _) =>
                      if (n <? 256)%Z then scan_cons (char_of n) (scan_string r'')
                      else Unmodelled
                  | None => Invalid
                  end
              | _ => Invalid
              end
            else
              match simple_escape e with
              | Some x => scan_cons x (scan_string r')
              | None => Invalid
              end
        end
      else if (code c <? 32)%Z then Invalid
      else scan_cons c (scan_string r)
  end.

(** The digits at the head of a text and what follows them. *)
Fixpoint span_digits (s : string) : string * string :=
  match s with
  | String c s' =>
      if is_digit c then
        let (ds, r) := span_digits s' in (String c ds, r)
      else (EmptyString, s)
  | EmptyString => (EmptyString, EmptyString)
  end.

Fixpoint digits_value (acc : Z) (s : string) : Z :=
  match s with
  | EmptyString => acc
  | String c s' => digits_value (acc * 10 + (code c - 48)) s'
  end.

Definition starts_with_digit (s : string) : bool :=
  match s with String c _ => is_digit c | EmptyString => false end.

(** Whether a fraction or an exponent follows the integer part, which makes
    the literal a float. *)
Definition float_tail (s : string) : bool :=
  match s with
  | String c r =>
      if (code c =? 46)%Z then starts_with_digit r
      else if ((code c =? 101) || (code c =? 69))%Z then
        match r with
        | String g r' =>
            if ((code g =? 43) || (code g =? 45))%Z then starts_with_digit r'
            else is_digit g
        | EmptyString => false
        end
      else false
  | EmptyString => false
  end.

(** The integer part of a number literal: [0] or a digit string without a
    leading zero, with the number of its digits; [None] when the text does
    not start with a digit. *)
Definition scan_int_part (s : string) : option (Z * nat * string) :=
  match s with
  | String c r =>
      if (code c =? 48)%Z then Some (0%Z, 1%nat, r)
      else if is_digit c then
        let (ds, r') := span_digits s in
        Some (digits_value 0 ds, String.length ds, r')
      else None
  | EmptyString => None
  end.

(** [int] refuses to convert a text of more digits than this; the error it
    raises is not a [JSONDecodeError]. *)
Definition max_str_digits : nat := 4300.

(** How deep arrays and objects may nest before the interpreter's recursion
    limit can be met. *)
Definition max_depth : nat := 100.

(** A number literal, or one of [NaN], [Infinity], [-Infinity]. *)
Definition scan_number (s : string) : scan json :=
  let (neg, body) :=
    match s with
    | String c r => if (code c =? 45)%Z then (true, r) else (false, s)
    | EmptyString => (false, s)
    end in
  match scan_int_part body with
  | Some (n, digits, rest) =>
      if float_tail rest then Unmodelled
      else if (max_str_digits <? digits)%nat then Unmodelled
      else Scanned (JInt (if neg then - n else n)) rest
  | None =>
      match strip_prefix "NaN" s, strip_prefix "Infinity" s,
            strip_prefix "-Infinity" s with
      | None, None, None => Invalid
      | _, _, _ => Unmodelled
      end
  end.

(** [dict(pairs)]: a repeated key keeps its first position and takes the
    last value. *)
Definition dict_of_pairs (pairs : list (string * json))
  : list (string * json) :=
  fold_left (fun d kv => PyDict.set (fst kv) (snd kv) d) pairs [].

(** The scanner.  [fuel] bounds the number of calls, and [loads] gives it
    more than the text can use; [depth] is how many arrays and objects may
    still be opened. *)
Fixpoint scan_value (fuel depth : nat) (s : string) : scan json :=
  match fuel with
  | O => Unmodelled
  | S fuel' =>
      match s with
      | EmptyString => Invalid
      | String c r =>
          if (code c =? 34)%Z then
            match scan_string r with
            | Scanned t rest => Scanned (JStr t) rest
            | Invalid => Invalid
            | Unmodelled => Unmodelled
            end
          else if (code c =? 123)%Z then
            match depth with
            | O => Unmodelled
            | S depth' =>
                match skip_ws r with
                | String c' r' =>
                    if (code c' =? 125)%Z then Scanned (JDict []) r'
                    else if (code c' =? 34)%Z then
                      scan_members fuel' depth' r' []
                    else Invalid
                | EmptyString => Invalid
                end
            end
          else if (code c =? 91)%Z then
            match depth with
            | O => Unmodelled
            | S depth' =>
                match skip_ws r with
                | String c' r' =>
                    if (code c' =? 93)%Z then Scanned (JList []) r'
                    else scan_elements fuel' depth' (String c' r') []
                | EmptyString => Invalid
                end
            end
          else
            match strip_prefix "null" s, strip_prefix "true" s,
                  strip_prefix "false" s with
            | Some rest, _, _ => Scanned JNull rest
            | None, Some rest, _ => Scanned (JBool true) rest
            | None, None, Some rest => Scanned (JBool false) rest
            | None, None, None => scan_number s
            end
      end
  end

(** The elements of an array, the cursor on the next value. *)
with scan_elements (fuel depth : nat) (s : string) (acc : list json)
  : scan json :=
  match fuel with
  | O => Unmodelled
  | S fuel' =>
      match scan_value fuel' depth s with
      | Scanned v rest =>
          match skip_ws rest with
          | String c r =>
              if (code c =? 93)%Z then Scanned (JList (acc ++ [v])) r
              else if (code c =? 44)%Z then
                scan_elements fuel' depth (skip_ws r) (acc ++ [v])
              else Invalid
          | EmptyString => Invalid
          end
      | Invalid => Invalid
      | Unmodelled => Unmodelled
      end
  end

(** The members of an object, the opening quote of the next key read. *)
with scan_members (fuel depth : nat) (s : string)
  (acc : list (string * json)) : scan json :=
  match fuel with
  | O => Unmodelled
  | S fuel' =>
      match scan_string s with
      | Scanned key rest =>
          match skip_ws rest with
          | String c r =>
              if (code c =? 58)%Z then
                match scan_value fuel' depth (skip_ws r) with
                | Scanned v rest' =>
                    match skip_ws rest' with
                    | String c' r' =>
                        if (code c' =? 125)%Z then
                          Scanned (JDict (dict_of_pairs (acc ++ [(key, v)]))) r'
                        else if (code c' =? 44)%Z then
                          match skip_ws r' with
                          | String c'' r'' =>
                              if (code c'' =? 34)%Z then
                                scan_members fuel' depth r''
                                             (acc ++ [(key, v)])
                              else Invalid
                          | EmptyString => Invalid
                          end
                        else Invalid
                    | EmptyString => Invalid
                    end
                | Invalid => Invalid
                | Unmodelled => Unmodelled
                end
              else Invalid
          | EmptyString => Invalid
          end
      | Invalid => Invalid
      | Unmodelled => Unmodelled
      end
  end.

(** How [json.loads(text)] ends. *)
Inductive loaded : Type :=
| Parsed (j : json)
| JSONDecodeError
| OutsideFragment.

Definition loads (text : string) : loaded :=
  match scan_value (S (String.length text)) max_depth (skip_ws text) with
  | Scanned j rest =>
      match skip_ws rest with
      | EmptyString => Parsed j
      | String _ _ => JSONDecodeError
      end
  | Invalid => JSONDecodeError
  | Unmodelled => OutsideFragment
  end.

End Json.

(** ** [hashlib.md5]

    RFC 1321 on 32-bit words held in [Z]; bytes are integers below 256. *)

Module Md5.

Definition mask32 (x : Z) : Z := x mod 4294967296.

Definition add32 (a b : Z) : Z := mask32 (a + b).

Definition not32 (x : Z) : Z := Z.lxor x 4294967295.

Definition rotl32 (x n : Z) : Z :=
  mask32 (Z.lor (Z.shiftl x n) (Z.shiftr x (32 - n))).

Definition shifts : list Z :=
  [7; 12; 17; 22; 7; 12; 17; 22; 7; 12; 17; 22; 7; 12; 17; 22;
   5; 9; 14; 20; 5; 9; 14; 20; 5; 9; 14; 20; 5; 9; 14; 20;
   4; 11; 16; 23; 4; 11; 16; 23; 4; 11; 16; 23; 4; 11; 16; 23;
   6; 10; 15; 21; 6; 10; 15; 21; 6; 10; 15; 21; 6; 10; 15; 21]%Z.

Definition K : list Z :=
  [3614090360; 3905402710; 606105819; 3250441966; 4118548399; 1200080426;
   2821735955; 4249261313; 1770035416; 2336552879; 4294925233; 2304563134;
   1804603682; 4254626195; 2792965006; 1236535329; 4129170786; 3225465664;
   643717713; 3921069994; 3593408605; 38016083; 3634488961; 3889429448;
   568446438; 3275163606; 4107603335; 1163531501; 2850285829; 4243563512;
   1735328473; 2368359562; 4294588738; 2272392833; 1839030562; 4259657740;
   2763975236; 1272893353; 4139469664; 3200236656; 681279174; 3936430074;
   3572445317; 76029189; 3654602809; 3873151461; 530742520; 3299628645;
   4096336452; 1126891415; 2878612391; 4237533241; 1700485571; 2399980690;
   4293915773; 2240044497; 1873313359; 4264355552; 2734768916; 1309151649;
   4149444226; 3174756917; 718787259; 3951481745]%Z.

Record state : Type := State { sa : Z; sb : Z; sc : Z; sd : Z }.

Definition initial : state :=
  State 1732584193 4023233417 2562383102 271733878.

(** One of the 64 operations on the 16 words [M] of a block. *)
Definition step (M : list Z) (st : state) (i : nat) : state :=
  let '(State a b c d) := st in
  let iz := Z.of_nat i in
  let '(f, g) :=
    if (iz <? 16)%Z then
      (Z.lor (Z.land b c) (Z.land (not32 b) d), iz)
    else if (iz <? 32)%Z then
      (Z.lor (Z.land d b) (Z.land (not32 d) c), (5 * iz + 1) mod 16)%Z
    else if (iz <? 48)%Z then
      (Z.lxor (Z.lxor b c) d, (3 * iz + 5) mod 16)%Z
    else
      (Z.lxor c (Z.lor b (not32 d)), (7 * iz) mod 16)%Z in
  let f' := add32 (add32 (add32 f a) (nth i K 0%Z)) (nth (Z.to_nat g) M 0%Z) in
  State d (add32 b (rotl32 f' (nth i shifts 0%Z))) b c.

(** Four bytes, least significant first, as a word. *)
Definition word_of_bytes (bs : list Z) : Z :=
  (nth 0 bs 0 + 256 * (nth 1 bs 0 + 256 * (nth 2 bs 0 + 256 * nth 3 bs 0)))%Z.

Fixpoint words (n : nat) (bs : list Z) : list Z :=
  match n with
  | O => []
  | S n' => word_of_bytes (firstn 4 bs) :: words n' (skipn 4 bs)
  end.

Definition block (st : state) (bs : list Z) : state :=
  let M := words 16 bs in
  let st' := fold_left (step M) (seq 0 64) st in
  State (add32 (sa st) (sa st')) (add32 (sb st) (sb st'))
        (add32 (sc st) (sc st')) (add32 (sd st) (sd st')).

Fixpoint blocks (n : nat) (st : state) (bs : list Z) : state :=
  match n with
  | O => st
  | S n' => blocks n' (block st (firstn 64 bs)) (skipn 64 bs)
  end.

(** The [n] low bytes of [x], least significant first. *)
Fixpoint bytes_le (n : nat) (x : Z) : list Z :=
  match n with
  | O => []
  | S n' => (x mod 256)%Z :: bytes_le n' (x / 256)
  end.

(** The message, a one bit, zeros up to 56 modulo 64, the bit length. *)
Definition pad (msg : list Z) : list Z :=
  let len := Z.of_nat (List.length msg) in
  msg ++ [128%Z] ++ repeat 0%Z (Z.to_nat ((55 - len) mod 64))
      ++ bytes_le 8 ((8 * len) mod 18446744073709551616).

Definition digest (msg : list Z) : list Z :=
  let p := pad msg in
  let st := blocks (List.length p / 64) initial p in
  bytes_le 4 (sa st) ++ bytes_le 4 (sb st)
    ++ bytes_le 4 (sc st) ++ bytes_le 4 (sd st).

Fixpoint hex (bs : list Z) : string :=
  match bs with
  | [] => EmptyString
  | b :: bs' => (Json.hex2 b ++ hex bs')%string
  end.

(** [text.encode()] on text made of ASCII characters, which is all
    [json.dumps] produces. *)
Definition encode (text : string) : list Z :=
  map Json.code (list_ascii_of_string text).

(** [hashlib.md5(data).hexdigest()] *)
Definition hexdigest (data : list Z) : string := hex (digest data).

End Md5.

(** ** MemoryCache *)

Definition Qlt_bool (x y : Q) : bool := negb (Qle_bool y x).

Module MemoryCache.

(** [_generate_key]: [params or {}] turns [None] into the empty
    dictionary. *)
Definition _generate_key (endpoint : string)
  (params : option (list (string * Json.json))) : string :=
  let key_data :=
    Json.JDict
      [("endpoint"%string, Json.JStr endpoint);
       ("params"%string,
        Json.JDict match params with Some d => d | None => [] end)] in
  let key_string := Json.dumps key_data in
  Md5.hexdigest (Md5.encode key_string).

Section Cache.
Variable V : Type.      (* the cached payload, [Any] *)

Record CacheEntry : Type := Entry {
  data : V;
  expires_at : Q
}.

(** [CacheEntry.is_expired]: [time.time() > self.expires_at] *)
Definition is_expired (e : CacheEntry) (w : world) : bool * world :=
  let (now, w') := time_time w in
  (Qlt_bool (expires_at e) now, w').

(** [CacheEntry.ttl]: [max(0, self.expires_at - time.time())] *)
Definition ttl (e : CacheEntry) (w : world) : Q * world :=
  let (now, w') := time_time w in
  let left := expires_at e - now in
  (if Qlt_bool 0 left then left else 0, w').

Record t : Type := Make {
  default_ttl : Z;
  max_size : Z;
  _cache : PyDict.dict CacheEntry;
  _access_times : PyDict.dict Q
}.

Definition init (default_ttl max_size : Z) : t :=
  Make default_ttl max_size [] [].

(** [min(items, key=lambda x: x[1])] on a non-empty sequence: the first
    item whose value is smallest. *)
Fixpoint min_by_time (best : string * Q) (l : list (string * Q))
  : string * Q :=
  match l with
  | [] => best
  | x :: l' =>
      if Qlt_bool (snd x) (snd best) then min_by_time x l'
      else min_by_time best l'
  end.

(** [_evict_oldest] *)
Definition _evict_oldest (self : t) : outcome t :=
  match _access_times self with
  | [] => Done self
  | x :: l =>
      let oldest_key := fst (min_by_time x l) in
      if PyDict.mem oldest_key (_cache self) then
        Done (Make (default_ttl self) (max_size self)
                   (PyDict.del oldest_key (_cache self))
                   (PyDict.del oldest_key (_access_times self)))
      else Raised (KeyError oldest_key)
  end.

(** [ttl or self.default_ttl] *)
Definition ttl_or_default (ttl : option Z) (self : t) : Z :=
  match ttl with
  | Some z => if (z =? 0)%Z then default_ttl self else z
  | None => default_ttl self
  end.

(** The body of [get] once the key is computed. *)
Definition get_at (self : t) (key : string) (w : world)
  : option V * t * world :=
  match PyDict.get key (_cache self) with
  | None => (None, self, w)
  | Some entry =>
      let (expired, w1) := is_expired entry w in
      if expired then
        let cache' := PyDict.del key (_cache self) in
        let access' :=
          if PyDict.mem key (_access_times self)
          then PyDict.del key (_access_times self)
          else _access_times self in
        (None, Make (default_ttl self) (max_size self) cache' access', w1)
      else
        let (now, w2) := time_time w1 in
        (Some (data entry),
         Make (default_ttl self) (max_size self) (_cache self)
              (PyDict.set key now (_access_times self)),
         w2)
  end.

(** The body of [set] once the key is computed. *)
Definition set_at (self : t) (key : string) (value : V) (ttl : option Z)
  (w : world) : outcome (t * world) :=
  let evicted :=
    if (Z.of_nat (List.length (_cache self)) >=? max_size self)%Z
    then _evict_oldest self else Done self in
  match evicted with
  | Done self1 =>
      let (now1, w1) := time_time w in
      let expires := now1 + inject_Z (ttl_or_default ttl self1) in
      let (now2, w2) := time_time w1 in
      Done (Make (default_ttl self1) (max_size self1)
                 (PyDict.set key (Entry value expires) (_cache self1))
                 (PyDict.set key now2 (_access_times self1)),
            w2)
  | Raised e => Raised e
  | Pending => Pending
  end.

(** [get] *)
Definition get (self : t) (endpoint : string)
  (params : option (list (string * Json.json))) (w : world)
  : option V * t * world :=
  get_at self (_generate_key endpoint params) w.

(** [set] *)
Definition set (self : t) (endpoint : string)
  (params : option (list (string * Json.json))) (value : V)
  (ttl : option Z) (w : world) : outcome (t * world) :=
  set_at self (_generate_key endpoint params) value ttl w.

(** [size] *)
Definition size (self : t) : Z := Z.of_nat (List.length (_cache self)).

(** [clear] *)
Definition clear (self : t) : t :=
  Make (default_ttl self) (max_size self) [] [].

(** A run of [set] calls on keys already computed. *)
Fixpoint set_all (self : t) (calls : list (string * V)) (w : world)
  : outcome (t * world) :=
  match calls with
  | [] => Done (self, w)
  | (k, v) :: calls' =>
      match set_at self k v None w with
      | Done (self', w') => set_all self' calls' w'
      | Raised e => Raised e
      | Pending => Pending
      end
  end.

(** The calls a user makes on a cache, keys already computed. *)
Inductive op : Type :=
| OpSet (key : string) (value : V) (ttl : option Z)
| OpGet (key : string)
| OpClear.

(** A run of such calls, the results of [get] dropped. *)
Fixpoint run_ops (self : t) (ops : list op) (w : world)
  : outcome (t * world) :=
  match ops with
  | [] => Done (self, w)
  | OpSet key value ttl :: ops' =>
      match set_at self key value ttl w with
      | Done (self', w') => run_ops self' ops' w'
      | Raised e => Raised e
      | Pending => Pending
      end
  | OpGet key :: ops' =>
      let '(_, self', w') := get_at self key w in run_ops self' ops' w'
  | OpClear :: ops' => run_ops (clear self) ops' w
  end.

(** The two maps of a cache describe the same keys, each once. *)
Definition wf (self : t) : Prop :=
  NoDup (PyDict.keys (_cache self)) /\
  NoDup (PyDict.keys (_access_times self)) /\
  (forall k, In k (PyDict.keys (_cache self)) <->
             In k (PyDict.keys (_access_times self))).

(** [mid] is [self] less exactly one entry, one of oldest access time. *)
Definition evicted_oldest (self mid : t) : Prop :=
  exists k0 t0,
    In (k0, t0) (_access_times self) /\
    (forall k t, In (k, t) (_access_times self) -> t0 <= t) /\
    In k0 (PyDict.keys (_cache self)) /\
    _cache mid = PyDict.del k0 (_cache self) /\
    _access_times mid = PyDict.del k0 (_access_times self) /\
    S (List.length (_cache mid)) = List.length (_cache self) /\
    default_ttl mid = default_ttl self /\ max_size mid = max_size self.

End Cache.

End MemoryCache.

(** ** RetryHandler *)

Module RetryHandler.

Record t : Type := Make {
  max_retries : Z;
  base_delay : Q;
  max_delay : Q
}.

(** Python's [min(a, b)]: [b] only when it is strictly smaller. *)
Definition py_min (a b : Q) : Q := if Qlt_bool b a then b else a.

Section Retry.
Variable St : Type.     (* whatever state the operation reads and writes *)
Variable Val : Type.    (* what the operation returns *)
Variable Exc : Type.    (* the exception objects the operation raises *)

(** One awaited invocation of [func] on the arguments given to [retry]. *)
Variable func : St -> (Val + Exc) * St.

(** Whether an exception object is an instance of [Exception], that is,
    whether [except Exception] catches it. *)
Variable is_Exception : Exc -> bool.

(** The builtin [hash] on floats. *)
Variable py_hash : Q -> Z.

Inductive event : Type :=
| ECall (r : Val + Exc)
| ESleep (delay : Q).

(** How [retry] ends: it returns, it raises an object that came out of the
    operation, or it raises its own [Exception("Unknown error occurred")]. *)
Inductive verdict : Type :=
| Returned (v : Val)
| Thrown (e : Exc)
| UnknownError.

Record run : Type := Run {
  result : verdict;
  final_state : St;
  final_world : world;
  trace : list event
}.

(** The statements after the loop. *)
Definition after_loop (last_exception : option Exc) : verdict :=
  match last_exception with
  | Some e => Thrown e
  | None => UnknownError
  end.

(** The delay slept after a failed attempt. *)
Definition backoff (self : t) (attempt : Z) (w : world) : Q * world :=
  let delay := py_min (max_delay self) (base_delay self * inject_Z (2 ^ attempt)) in
  let (now, w') := time_time w in
  let jitter := delay * (1 # 10) * inject_Z (py_hash now mod 100) / 100 in
  (delay + jitter, w').

(** [for attempt in range(self.max_retries + 1)], with [n] iterations still
    to run, the next one numbered [attempt]. *)
Fixpoint loop (self : t) (n : nat) (attempt : Z) (last_exception : option Exc)
  (s : St) (w : world) (tr : list event) : run :=
  match n with
  | O => Run (after_loop last_exception) s w tr
  | S n' =>
      let (r, s') := func s in
      let tr' := tr ++ [ECall r] in
      match r with
      | inl v => Run (Returned v) s' w tr'
      | inr e =>
          if is_Exception e then
            if (attempt =? max_retries self)%Z then
              Run (after_loop (Some e)) s' w tr'
            else
              let (delay, w') := backoff self attempt w in
              loop self n' (attempt + 1) (Some e) s' w' (tr' ++ [ESleep delay])
          else Run (Thrown e) s' w tr'
      end
  end.

(** [retry] *)
Definition retry (self : t) (s : St) (w : world) : run :=
  loop self (Z.to_nat (max_retries self + 1)) 0 None s w [].

Definition is_call (e : event) : bool :=
  match e with ECall _ => true | ESleep _ => false end.

(** How many times the operation was invoked. *)
Definition calls (tr : list event) : nat := List.length (filter is_call tr).


(** How many times [retry] slept. *)
Definition sleeps (tr : list event) : nat :=
  List.length (filter (fun e => negb (is_call e)) tr).




End Retry.

Arguments ECall {Val Exc} r.
Arguments ESleep {Val Exc} delay.
Arguments Returned {Val Exc} v.
Arguments Thrown {Val Exc} e.
Arguments UnknownError {Val Exc}.

End RetryHandler.

(** ** HTTPClientHelper *)

Module HTTPClientHelper.

(** What [headers.get(name, 0)] hands to [int] or [float]: the header text,
    or the integer default. *)
Inductive header_value : Type :=
| HText (s : string)
| HDefault (z : Z).

Definition headers_get (name : string) (default : Z)
  (headers : PyDict.dict string) : header_value :=
  match PyDict.get name headers with
  | Some s => HText s
  | None => HDefault default
  end.

Section ParseRateLimit.
(** The builtins [int] and [float] on a string; [None] is [ValueError]. *)
Variable int_of_str : string -> option Z.
Variable float_of_str : string -> option Q.

Definition to_int (v : header_value) : option Z :=
  match v with
  | HText s => int_of_str s
  | HDefault z => Some z
  end.

Definition to_float (v : header_value) : option Q :=
  match v with
  | HText s => float_of_str s
  | HDefault z => Some (inject_Z z)
  end.

(** [parse_rate_limit]: [None] when a conversion raised. *)
Definition parse_rate_limit (headers : PyDict.dict string)
  : option RateLimitInfo :=
  match to_int (headers_get "x-ratelimit-limit" 0 headers) with
  | None => None
  | Some limit =>
      match to_int (headers_get "x-ratelimit-remaining" 0 headers) with
      | None => None
      | Some remaining =>
          match to_float (headers_get "x-ratelimit-reset" 0 headers) with
          | None => None
          | Some reset =>
              let used := (limit - remaining)%Z in
              Some (Info limit remaining reset used)
          end
      end
  end.

(** A header that is present and does not convert. *)
Definition malformed (headers : PyDict.dict string) : Prop :=
  (exists l, PyDict.get "x-ratelimit-limit" headers = Some l /\
             int_of_str l = None) \/
  (exists r, PyDict.get "x-ratelimit-remaining" headers = Some r /\
             int_of_str r = None) \/
  (exists t, PyDict.get "x-ratelimit-reset" headers = Some t /\
             float_of_str t = None).

End ParseRateLimit.

(** [get_error_message].  The result is the value of the [message] field,
    which need not be a string, or a string; [None] stands for a body
    outside the fragment of JSON that [Json.loads] covers. *)
Definition get_error_message (response_text : string) : option Json.json :=
  match Json.loads response_text with
  | Json.Parsed (Json.JDict d) =>
      match PyDict.get "message" d with
      | Some v => Some v
      | None => Some (Json.JStr (Json.str (Json.JDict d)))
      end
  | Json.Parsed _ => Some (Json.JStr response_text)
  | Json.JSONDecodeError => Some (Json.JStr response_text)
  | Json.OutsideFragment => None
  end.

(** [should_retry] *)
Definition should_retry (status_code : Z) : bool :=
  existsb (Z.eqb status_code) [429; 500; 502; 503; 504]%Z.

(** Plain decimal numerals, the part of [int] and [float] on strings that
    the examples below use. *)
Fixpoint digits_value (acc : Z) (s : string) : option Z :=
  match s with
  | EmptyString => Some acc
  | String c s' =>
      let n := Z.of_nat (nat_of_ascii c) in
      if ((48 <=? n) && (n <=? 57))%Z
      then digits_value (acc * 10 + (n - 48)) s'
      else None
  end.

Definition decimal_int (s : string) : option Z :=
  match s with
  | EmptyString => None
  | _ => digits_value 0 s
  end.

Definition decimal_float (s : string) : option Q :=
  option_map inject_Z (decimal_int s).

End HTTPClientHelper.

(** ** Several tasks on one RateLimiter

    asyncio runs one task at a time and switches only where a task awaits.
    [acquire] awaits at two places: entering [async with self._lock], where
    the task stays suspended for as long as another task holds the lock,
    and [asyncio.sleep] inside the loop, which it reaches with the lock
    held.  A task is described by where it stands; the scheduler picks a
    task and the clock reading it sees when it runs. *)

Module Tasks.

Inductive task : Type :=
| Calling (n : Z)                     (* at [async with self._lock] *)
| Sleeping (n : Z) (time_passed : Q)  (* in [asyncio.sleep], lock held *)
| Returned
| Failed (e : pyexn).

Record system : Type := System {
  limiter : RateLimiter.t;
  lock : option nat;                  (* the task that holds [self._lock] *)
  tasks : list task
}.

Fixpoint update (i : nat) (t : task) (l : list task) : list task :=
  match l, i with
  | [], _ => []
  | _ :: l', O => t :: l'
  | x :: l', S i' => x :: update i' t l'
  end.

(** From the test of the loop condition to the next suspension or to the
    end of the call. *)
Definition settle (sys : system) (i : nat) (n : Z) (time_passed : Q)
  (refilled : outcome RateLimiter.t) : system :=
  match refilled with
  | Done self =>
      if (RateLimiter.tokens self <? n)%Z then
        System self (Some i) (update i (Sleeping n time_passed) (tasks sys))
      else
        System (RateLimiter.consume self n) None
               (update i Returned (tasks sys))
  | Raised e => System (limiter sys) None (update i (Failed e) (tasks sys))
  | Pending => sys
  end.

(** Task [i] is given the processor and reads [now] from the clock; [None]
    when it cannot run. *)
Definition resume (sys : system) (i : nat) (now : Q) : option system :=
  match nth_error (tasks sys) i with
  | Some (Calling n) =>
      match lock sys with
      | Some _ => None
      | None =>
          let time_passed := now - RateLimiter.last_refill (limiter sys) in
          Some (settle sys i n time_passed
                       (RateLimiter.refill (limiter sys) now))
      end
  | Some (Sleeping n _) =>
      let time_passed := now - RateLimiter.last_refill (limiter sys) in
      Some (settle sys i n time_passed
                   (RateLimiter.refill (limiter sys) now))
  | _ => None
  end.

(** Tasks that all start by calling [acquire] on a limiter nobody holds. *)
Definition initial (self : RateLimiter.t) (reqs : list Z) : system :=
  System self None (map Calling reqs).

Inductive reachable : system -> Prop :=
| reach_initial self reqs : reachable (initial self reqs)
| reach_resume sys i now sys' :
    reachable sys -> resume sys i now = Some sys' -> reachable sys'.

(** The lock is held exactly by the task that sleeps in the loop. *)
Definition lock_held_by_sleeper (sys : system) : Prop :=
  forall i, lock sys = Some i <->
            exists n tp, nth_error (tasks sys) i = Some (Sleeping n tp).

End Tasks.

(** ** The client's use of the utilities ([client.py]) *)

Module Client.

(** [_add_api_key]: the dictionary it returns (and, in Python, mutates). *)
Definition _add_api_key (api_key : string)
  (params : option (list (string * Json.json))) : list (string * Json.json) :=
  PyDict.set "api_key" (Json.JStr api_key)
             match params with Some d => d | None => [] end.

(** [_get_cache_key]: [params.copy() if params else {}], then the key. *)
Definition _get_cache_key (api_key endpoint : string)
  (params : option (list (string * Json.json))) : string :=
  let cache_params :=
    PyDict.set "api_key" (Json.JStr api_key)
               match params with
               | Some (x :: d) => x :: d
               | _ => []
               end in
  let key_data :=
    Json.JDict [("endpoint"%string, Json.JStr endpoint);
                ("params"%string, Json.JDict cache_params)] in
  Md5.hexdigest (Md5.encode (Json.dumps key_data)).

(** The exception classes of client.py, each with its message. *)
Inductive error : Type :=
| LibrariesIOClientError (message : string)
| RateLimitError (message : string)
| AuthenticationError (message : string)
| NotFoundError (message : string)
| ServerError (message : string).

(** What a call of the client raises.  Each of them is an instance of
    [Exception]. *)
Inductive raised : Type :=
| Error (e : error)
| FormatError     (* what [datetime.fromtimestamp] raised in the log line *)
| Undetermined.   (* the body is outside the fragment of JSON modelled:
                     the error built from it, or the exception of
                     [json.loads], is not determined here *)

(** The part of an [httpx.Response] the client reads.  The headers are
    looked up by their lower-case names. *)
Record Response : Type := {
  status_code : Z;
  headers : PyDict.dict string;
  text : string
}.

Section CheckRateLimit.
Variable int_of_str : string -> option Z.
Variable float_of_str : string -> option Q.
(** Whether [datetime.fromtimestamp] accepts the instant. *)
Variable fromtimestamp_ok : Q -> bool.

(** [_check_rate_limit]: the new value of [self._rate_limit_info] and the
    way the call ends.  The f-string of the log line is evaluated whatever
    the log level. *)
Definition _check_rate_limit (response : Response)
  (_rate_limit_info : option RateLimitInfo)
  : option RateLimitInfo * (unit + raised) :=
  match HTTPClientHelper.parse_rate_limit int_of_str float_of_str
          (headers response) with
  | Some rate_limit_info =>
      if fromtimestamp_ok (info_reset rate_limit_info) then
        if (info_remaining rate_limit_info <=? 0)%Z
        then (Some rate_limit_info,
              inr (Error (RateLimitError "Rate limit exceeded")))
        else (Some rate_limit_info, inl tt)
      else (Some rate_limit_info, inr FormatError)
  | None => (_rate_limit_info, inl tt)
  end.

(** [_handle_error]: the error object it returns, unless the rate-limit
    check raises first. *)
Definition _handle_error (response : Response)
  (_rate_limit_info : option RateLimitInfo)
  : option RateLimitInfo * (error + raised) :=
  match _check_rate_limit response _rate_limit_info with
  | (info, inr e) => (info, inr e)
  | (info, inl _) =>
      match HTTPClientHelper.get_error_message (text response) with
      | None => (info, inr Undetermined)
      | Some m =>
          let error_message := Json.str m in
          let code := status_code response in
          (info,
           inl (if (code =? 401)%Z then
                  AuthenticationError
                    ("Authentication failed: " ++ error_message)
                else if (code =? 404)%Z then
                  NotFoundError ("Resource not found: " ++ error_message)
                else if (code =? 429)%Z then
                  RateLimitError ("Rate limit exceeded: " ++ error_message)
                else if ((500 <=? code) && (code <? 600))%Z then
                  ServerError ("Server error (" ++ Json.decimal code
                               ++ "): " ++ error_message)
                else
                  LibrariesIOClientError
                    ("HTTP " ++ Json.decimal code ++ ": " ++ error_message)))
      end
  end%string.

(** [_execute_request], from the point where [self.session.request] has
    answered with [response]. *)
Definition _execute_request (response : Response)
  (_rate_limit_info : option RateLimitInfo)
  : option RateLimitInfo * (Response + raised) :=
  if (400 <=? status_code response)%Z then
    match _handle_error response _rate_limit_info with
    | (info, inl e) => (info, inr (Error e))
    | (info, inr e) => (info, inr e)
    end
  else
    match _check_rate_limit response _rate_limit_info with
    | (info, inl _) => (info, inl response)
    | (info, inr e) => (info, inr e)
    end.


End CheckRateLimit.

End Client.

(** ** Python strings: [lower], [strip], [split], [join]

    On strings whose code points are below 256. *)

Module PyStr.

(** [c.isspace()] *)
Definition is_space (c : ascii) : bool :=
  let n := Json.code c in
  (((9 <=? n) && (n <=? 13)) || ((28 <=? n) && (n <=? 32))
   || (n =? 133) || (n =? 160))%Z.

(** [c.lower()] *)
Definition lower_char (c : ascii) : ascii :=
  let n := Json.code c in
  if (((65 <=? n) && (n <=? 90))
      || ((192 <=? n) && (n <=? 222) && negb (n =? 215)))%Z
  then Json.char_of (n + 32) else c.

Fixpoint lower (s : string) : string :=
  match s with
  | EmptyString => EmptyString
  | String c s' => String (lower_char c) (lower s')
  end.

Fixpoint has_space (s : string) : bool :=
  match s with
  | EmptyString => false
  | String c s' => is_space c || has_space s'
  end.




(** The words of [s] after the word [cur] being read. *)
Fixpoint words_from (cur : string) (s : string) : list string :=
  match s with
  | EmptyString =>
      match cur with EmptyString => [] | _ => [cur] end
  | String c s' =>
      if is_space c then
        match cur with
        | EmptyString => words_from EmptyString s'
        | _ => cur :: words_from EmptyString s'
        end
      else words_from (cur ++ String c EmptyString) s'
  end.

(** [s.split()] *)
Definition split (s : string) : list string := words_from EmptyString s.



End PyStr.

(** ** [validate_platform] and [sanitize_package_name] *)

Definition valid_platforms : list string :=
  ["npm"; "pypi"; "maven"; "gem"; "nuget"; "docker"; "hex"; "cran";
   "hackage"; "packagist"; "cocoapods"; "bower"; "composer"; "go";
   "elm"; "pub"; "dart"; "conan"; "bitbucket"; "github"; "gitlab"]%string.

Definition validate_platform (platform : string) : bool :=
  existsb (String.eqb (PyStr.lower platform)) valid_platforms.


(* ================================================================== *)
(** * Properties *)
(* ================================================================== *)

(** The scenario of the specification: [RateLimiter(2, 1)], two calls that
    pass at once and a third that has to sleep before it passes. *)
Example limiter_two_then_wait :
  let c := fun i => if (i <? 4)%nat then 0 else 2 in
  let '(l, w) := RateLimiter.init 2 1 (World c 0) in
  RateLimiter.acquire_all 0 l [1; 1]%Z w =
    Done (RateLimiter.Make 2 1 0 0, World c 3,
          [RateLimiter.EvRefill 2; RateLimiter.EvConsume 1;
           RateLimiter.EvRefill 1; RateLimiter.EvConsume 0]) /\
  RateLimiter.acquire 0 (RateLimiter.Make 2 1 0 0) 1 (World c 3) = Pending /\
  RateLimiter.acquire 1 (RateLimiter.Make 2 1 0 0) 1 (World c 3) =
    Done (RateLimiter.Make 2 1 1 2, World c 5,
          [RateLimiter.EvRefill 0; RateLimiter.EvSleep (1 - (0 - 0) + 1);
           RateLimiter.EvRefill 2; RateLimiter.EvConsume 1]).
Proof. repeat split. Qed.

(** ** RateLimiter: the refill step *)

Section LimiterFacts.
Import RateLimiter.

Lemma wait_eq fuel self n tp w tr :
  wait fuel self n tp w tr =
  if (tokens self <? n)%Z then
    match fuel with
    | O => Pending
    | S fuel' =>
        match refill self (clock w (ticks w)) with
        | Done self' =>
            wait fuel' self' n (clock w (ticks w) - last_refill self)
                 (World (clock w) (S (ticks w)))
                 (tr ++ [EvSleep (inject_Z (window_seconds self) - tp + 1);
                         EvRefill (tokens self')])
        | Raised e => Raised e
        | Pending => Pending
        end
    end
  else Done (consume self n, w, tr ++ [EvConsume (tokens self - n)]).
Proof. destruct fuel; reflexivity. Qed.

Lemma refill_not_pending self now : refill self now <> Pending.
Proof.
  unfold refill.
  destruct (Qle_bool _ _); [discriminate|].
  destruct (window_seconds self =? 0)%Z; discriminate.
Qed.

(** Whatever the clock says, a refill leaves at most [limit] tokens and
    touches neither [limit] nor [window_seconds]. *)
Lemma refill_capped self now self' :
  refill self now = Done self' ->
  limit self' = limit self /\ window_seconds self' = window_seconds self /\
  last_refill self' = now /\ (tokens self' <= limit self)%Z.
Proof.
  unfold refill.
  destruct (Qle_bool _ _).
  - intros [= <-]; simpl; repeat split; lia.
  - destruct (window_seconds self =? 0)%Z; [discriminate|].
    intros [= <-]; simpl; repeat split; lia.
Qed.


Lemma py_int_nonneg q : 0 <= q -> (0 <= py_int q)%Z.
Proof.
  unfold Qle, py_int; simpl; intros H.
  apply Z.quot_pos; lia.
Qed.

Lemma refill_ratio_nonneg (tp : Q) (W L : Z) :
  0 <= tp -> Qle_bool (inject_Z W) tp = false -> (0 <= L)%Z ->
  0 <= (tp / inject_Z W) * inject_Z L.
Proof.
  intros Htp HW HL.
  assert (HltW : tp < inject_Z W).
  { apply Qnot_le_lt; intros C; apply Qle_bool_iff in C; congruence. }
  apply Qmult_le_0_compat.
  - unfold Qdiv; apply Qmult_le_0_compat; [assumption|].
    apply Qinv_le_0_compat, Qlt_le_weak.
    eapply Qle_lt_trans; eassumption.
  - unfold Qle; simpl; lia.
Qed.

(** When time has not gone backwards since the last refill, a refill keeps
    the token count within [0, limit]. *)
Lemma refill_in_bounds self now self' :
  (0 <= limit self)%Z -> in_bounds self (tokens self) ->
  last_refill self <= now ->
  refill self now = Done self' ->
  in_bounds self' (tokens self').
Proof.
  unfold refill, in_bounds; intros Hl Hb Hnow.
  assert (Htp : 0 <= now - last_refill self).
  { unfold Qminus; rewrite <- Qle_minus_iff; exact Hnow. }
  destruct (Qle_bool _ _) eqn:E.
  - intros [= <-]; simpl; lia.
  - destruct (window_seconds self =? 0)%Z; [discriminate|].
    intros [= <-]; simpl.
    pose proof (py_int_nonneg (refill_ratio_nonneg _ Htp E Hl)).
    lia.
Qed.

(** ** RateLimiter: a request above the capacity *)


Lemma wait_never_done_above_limit fuel : forall self n tp w tr r,
  (limit self < n)%Z -> (tokens self <= limit self)%Z ->
  wait fuel self n tp w tr <> Done r.
Proof.
  induction fuel as [|fuel IH]; intros self n tp w tr r Hn Hcap;
    rewrite wait_eq;
    (replace (tokens self <? n)%Z with true by (symmetry; apply Z.ltb_lt; lia)).
  - discriminate.
  - destruct (refill self (clock w (ticks w))) as [self'|e|] eqn:R;
      try discriminate.
    destruct (refill_capped _ _ R) as (Hl & Hw & _ & Hc).
    apply IH; rewrite ?Hl; auto.
Qed.

(** Whatever the state of the limiter and the clock, a request above the
    capacity is never granted. *)
Lemma acquire_above_limit_never_done fuel self n w r :
  (limit self < n)%Z -> acquire fuel self n w <> Done r.
Proof.
  intros Hn; unfold acquire; simpl.
  destruct (refill self (clock w (ticks w))) as [self'|e|] eqn:R;
    try discriminate.
  destruct (refill_capped _ _ R) as (Hl & _ & _ & Hc).
  apply wait_never_done_above_limit; rewrite ?Hl; auto.
Qed.





(** ** RateLimiter: the token-bucket bound *)

Lemma monotone_le c i j : monotone c -> (i <= j)%nat -> c i <= c j.
Proof.
  intros Hc Hij; induction Hij as [|j Hij IH].
  - apply Qle_refl.
  - eapply Qle_trans; [exact IH | apply Hc].
Qed.

Lemma Forall_snoc (A : Type) (P : A -> Prop) l x :
  Forall P l -> P x -> Forall P (l ++ [x]).
Proof. intros; apply Forall_app; split; auto. Qed.






(** Without any assumption on the clock the counts seen at the end of each
    completed call are still within bounds: the loop leaves only with
    [tokens >= n], and every refill caps at [limit]. *)
Lemma wait_consume_bounds fuel : forall self n tp w tr self' w' tr',
  (tokens self <= limit self)%Z -> (0 <= n)%Z ->
  Forall (consume_ok (limit self)) tr ->
  wait fuel self n tp w tr = Done (self', w', tr') ->
  limit self' = limit self /\ (0 <= tokens self' <= limit self)%Z /\
  Forall (consume_ok (limit self)) tr'.
Proof.
  induction fuel as [|fuel IH]; intros self n tp w tr self' w' tr'
    Hcap Hn Htr; rewrite wait_eq;
    destruct (tokens self <? n)%Z eqn:E; try discriminate.
  1,3: intros [= <- <- <-]; apply Z.ltb_ge in E; simpl;
       repeat split; auto; try lia; apply Forall_snoc; simpl; auto; lia.
  destruct (refill self (clock w (ticks w))) as [s1|e|] eqn:R;
    try discriminate.
  destruct (refill_capped _ _ R) as (Hl1 & _ & _ & Hc1).
  intros H; apply IH in H; rewrite ?Hl1 in *; auto.
  apply Forall_app; split; auto; repeat constructor.
Qed.

Lemma acquire_consume_bounds fuel self n w self' w' tr :
  (0 <= n)%Z ->
  acquire fuel self n w = Done (self', w', tr) ->
  limit self' = limit self /\ (0 <= tokens self' <= limit self)%Z /\
  Forall (consume_ok (limit self)) tr.
Proof.
  intros Hn; unfold acquire; simpl.
  destruct (refill self (clock w (ticks w))) as [s1|e|] eqn:R;
    try discriminate.
  destruct (refill_capped _ _ R) as (Hl1 & _ & _ & Hc1).
  intros H; apply wait_consume_bounds in H; rewrite ?Hl1 in *; auto.
  repeat constructor.
Qed.

(** A clock that steps backwards is what the monotonicity assumption rules
    out: the refill step of the second call below shows a negative count. *)
Example refill_under_backward_clock :
  let c := fun i => match i with
                    | O => 100 | 1%nat => 100 | 2%nat => 50 | _ => 200
                    end in
  let (l0, w0) := init 1 10 (World c 0) in
  acquire_all 1 l0 [1; 1]%Z w0 =
  Done (Make 1 10 0 200, World c 4,
        [EvRefill 1; EvConsume 0;
         EvRefill (-5); EvSleep (10 - (50 - 100) + 1); EvRefill 1;
         EvConsume 0]).
Proof. reflexivity. Qed.

End LimiterFacts.

(** ** Dictionaries *)

Section DictFacts.
Import PyDict.
Variable V : Type.
Implicit Types (d : dict V) (k : string).

Lemma get_some_in_keys k d v : get k d = Some v -> In k (keys d).
Proof.
  induction d as [|[k' v'] d IH]; simpl; [discriminate|].
  destruct (String.eqb_spec k k'); auto.
Qed.

Lemma get_none_not_in_keys k d : get k d = None -> ~ In k (keys d).
Proof.
  induction d as [|[k' v'] d IH]; simpl; [tauto|].
  destruct (String.eqb_spec k k'); [discriminate|].
  intros H [E|HI]; [congruence | exact (IH H HI)].
Qed.

Lemma mem_true_iff k d : mem k d = true <-> In k (keys d).
Proof.
  unfold mem; destruct (get k d) eqn:E; split; auto; try discriminate.
  - intros _; eapply get_some_in_keys; eauto.
  - intros H; exfalso; eapply get_none_not_in_keys; eauto.
Qed.

Lemma mem_false_iff k d : mem k d = false <-> ~ In k (keys d).
Proof.
  rewrite <- mem_true_iff; destruct (mem k d); split; congruence.
Qed.

Lemma keys_del k d :
  keys (del k d) = filter (fun k' => negb (String.eqb k k')) (keys d).
Proof.
  induction d as [|[k' v'] d IH]; simpl; auto.
  destruct (String.eqb k k'); simpl; congruence.
Qed.

Lemma in_keys_del k k' d :
  In k' (keys (del k d)) <-> In k' (keys d) /\ k' <> k.
Proof.
  rewrite keys_del, filter_In.
  destruct (String.eqb_spec k k'); simpl; split; intros [? ?];
    split; auto; congruence.
Qed.

Lemma mem_del k d : mem k (del k d) = false.
Proof. apply mem_false_iff; rewrite in_keys_del; tauto. Qed.

Lemma NoDup_keys_del k d : NoDup (keys d) -> NoDup (keys (del k d)).
Proof. rewrite keys_del; apply NoDup_filter. Qed.

Lemma del_absent k d : ~ In k (keys d) -> del k d = d.
Proof.
  induction d as [|[k' v'] d IH]; simpl; auto.
  intros H; destruct (String.eqb_spec k k'); simpl.
  - subst; tauto.
  - rewrite IH; tauto.
Qed.

Lemma length_del k d :
  NoDup (keys d) -> In k (keys d) ->
  S (List.length (del k d)) = List.length d.
Proof.
  induction d as [|[k' v'] d IH]; simpl; [tauto|].
  intros Hnd Hin; inversion Hnd as [|? ? Hk' Hnd']; subst.
  destruct (String.eqb_spec k k'); simpl.
  - subst; fold (del k' d); rewrite del_absent; auto.
  - f_equal; apply IH; auto. destruct Hin; congruence.
Qed.

Lemma set_absent k v d : ~ In k (keys d) -> set k v d = d ++ [(k, v)].
Proof.
  induction d as [|[k' v'] d IH]; simpl; auto.
  intros H; destruct (String.eqb_spec k k').
  - subst; tauto.
  - rewrite IH; tauto.
Qed.

Lemma keys_set_present k v d : In k (keys d) -> keys (set k v d) = keys d.
Proof.
  induction d as [|[k' v'] d IH]; simpl; [tauto|].
  intros H; destruct (String.eqb_spec k k'); simpl; auto.
  f_equal; apply IH; destruct H; congruence.
Qed.

Lemma keys_set_absent k v d :
  ~ In k (keys d) -> keys (set k v d) = keys d ++ [k].
Proof.
  intros H; rewrite set_absent by assumption.
  unfold keys; rewrite map_app; reflexivity.
Qed.

Lemma in_keys_set k k' v d :
  In k' (keys (set k v d)) <-> k' = k \/ In k' (keys d).
Proof.
  destruct (in_dec string_dec k (keys d)) as [H|H].
  - rewrite keys_set_present by assumption; split; auto.
    intros [->|?]; auto.
  - rewrite keys_set_absent, in_app_iff by assumption; simpl.
    split; intros; intuition congruence.
Qed.

Lemma NoDup_keys_set k v d : NoDup (keys d) -> NoDup (keys (set k v d)).
Proof.
  intros Hnd; destruct (in_dec string_dec k (keys d)) as [H|H].
  - rewrite keys_set_present; assumption.
  - rewrite keys_set_absent by assumption.
    apply NoDup_app; repeat split; auto.
    + repeat constructor; simpl; tauto.
    + intros x Hx [<-|[]]; contradiction.
Qed.

Lemma get_set_same k v d : get k (set k v d) = Some v.
Proof.
  induction d as [|[k' v'] d IH]; simpl.
  - rewrite String.eqb_refl; reflexivity.
  - destruct (String.eqb_spec k k') as [->|N]; simpl.
    + rewrite String.eqb_refl; reflexivity.
    + destruct (String.eqb_spec k k'); [contradiction | exact IH].
Qed.

End DictFacts.

(** ** MemoryCache: expiry at read time *)

Lemma Qlt_bool_true x y : Qlt_bool x y = true <-> x < y.
Proof.
  unfold Qlt_bool; rewrite negb_true_iff; split.
  - intros H; apply Qnot_le_lt; intros C.
    apply Qle_bool_iff in C; congruence.
  - intros H; destruct (Qle_bool y x) eqn:E; auto.
    apply Qle_bool_iff in E; exfalso; eapply Qlt_not_le; eauto.
Qed.

Lemma Qlt_bool_false x y : Qlt_bool x y = false <-> y <= x.
Proof.
  unfold Qlt_bool; rewrite negb_false_iff; apply Qle_bool_iff.
Qed.

Section CacheFacts.
Import MemoryCache.
Variable V : Type.
Implicit Types (self : t V) (key : string) (w : world).

(** C6 (as the code behaves): for a stored entry, a [get] performed while
    [now <= expires_at] returns the stored value and stamps the access time;
    a [get] performed when [now > expires_at] returns [None] and leaves the
    key in neither map.  The comparison is strict: at the very instant
    [now = expires_at] the entry is still served. *)
Theorem get_serves_until_expiry self key entry w :
  PyDict.get key (_cache self) = Some entry ->
  let now := clock w (ticks w) in
  (now <= expires_at entry ->
     get_at self key w =
     (Some (data entry),
      Make (default_ttl self) (max_size self) (_cache self)
           (PyDict.set key (clock w (S (ticks w))) (_access_times self)),
      World (clock w) (S (S (ticks w))))) /\
  (expires_at entry < now ->
     exists self',
       get_at self key w = (None, self', World (clock w) (S (ticks w))) /\
       PyDict.mem key (_cache self') = false /\
       PyDict.mem key (_access_times self') = false).
Proof.
  intros Hget now; unfold get_at; rewrite Hget; unfold is_expired; simpl.
  fold now; split; intros H.
  - apply Qlt_bool_false in H; rewrite H; reflexivity.
  - apply Qlt_bool_true in H; rewrite H.
    eexists; split; [reflexivity|]; simpl; split.
    + apply mem_del.
    + destruct (PyDict.mem key (_access_times self)) eqn:E; auto.
      apply mem_del.
Qed.

(** ** MemoryCache: eviction *)

Lemma min_by_time_spec (l : list (string * Q)) : forall best,
  In (min_by_time best l) (best :: l) /\
  forall y, In y (best :: l) -> snd (min_by_time best l) <= snd y.
Proof.
  induction l as [|x l IH]; intros best; simpl.
  - split; auto. intros y [<-|[]]; apply Qle_refl.
  - destruct (Qlt_bool (snd x) (snd best)) eqn:E.
    + destruct (IH x) as [Hin Hmin]; split.
      * simpl in Hin; tauto.
      * intros y [<-|Hy]; [|apply Hmin; exact Hy].
        apply Qle_trans with (snd x); [apply Hmin; simpl; auto|].
        apply Qlt_le_weak, Qlt_bool_true; exact E.
    + destruct (IH best) as [Hin Hmin]; split.
      * simpl in Hin; tauto.
      * intros y [<-|[<-|Hy]].
        -- apply Hmin; simpl; auto.
        -- apply Qle_trans with (snd best); [apply Hmin; simpl; auto|].
           apply Qlt_bool_false; exact E.
        -- apply Hmin; simpl; auto.
Qed.

Lemma evict_oldest_nonempty self :
  wf self -> _access_times self <> [] ->
  exists mid,
    _evict_oldest self = Done mid /\ evicted_oldest self mid /\ wf mid.
Proof.
  intros (Hc & Ha & Hk) Hne; unfold _evict_oldest.
  destruct (_access_times self) as [|x l] eqn:E; [congruence|].
  destruct (min_by_time_spec l x) as [Hin Hmin].
  set (m := min_by_time x l) in *.
  assert (Hka : In (fst m) (PyDict.keys (x :: l))).
  { apply in_map; exact Hin. }
  assert (Hkc : In (fst m) (PyDict.keys (_cache self))).
  { apply Hk; exact Hka. }
  apply mem_true_iff in Hkc as Hmem; rewrite Hmem.
  eexists; split; [reflexivity|]; split.
  - exists (fst m), (snd m).
    rewrite <- surjective_pairing.
    cbn [_cache _access_times default_ttl max_size]; rewrite E.
    repeat split; auto.
    + intros k t Hkt; apply (Hmin (k, t)); exact Hkt.
    + apply length_del; auto.
  - unfold wf; cbn [_cache _access_times].
    repeat split; try apply NoDup_keys_del; auto.
    + rewrite !in_keys_del; intros [H1 H2]; split; auto; apply Hk; auto.
    + rewrite !in_keys_del; intros [H1 H2]; split; auto; apply Hk; auto.
Qed.

Lemma wf_insert self key e now :
  wf self ->
  wf (Make (default_ttl self) (max_size self)
           (PyDict.set key e (_cache self))
           (PyDict.set key now (_access_times self))).
Proof.
  intros (Hc & Ha & Hk); repeat split; simpl;
    try apply NoDup_keys_set; auto;
    rewrite !in_keys_set; intros [?|?]; auto; right; apply Hk; auto.
Qed.

Lemma wf_nonempty self :
  wf self -> _cache self <> [] -> _access_times self <> [].
Proof.
  intros (_ & _ & Hk) Hne E.
  destruct (_cache self) as [|[k v] d]; [congruence|].
  specialize (Hk k); rewrite E in Hk; simpl in Hk; tauto.
Qed.

(** What one [set] of a key not yet stored does to a well-formed cache of
    capacity at least one. *)
Lemma set_at_fresh_key self key v ttl w :
  wf self -> (1 <= max_size self)%Z ->
  ~ In key (PyDict.keys (_cache self)) ->
  (size self <= max_size self)%Z ->
  exists self' w',
    set_at self key v ttl w = Done (self', w') /\ wf self' /\
    max_size self' = max_size self /\
    (forall k, In k (PyDict.keys (_cache self')) ->
               k = key \/ In k (PyDict.keys (_cache self))) /\
    size self' = Z.min (size self + 1) (max_size self).
Proof.
  intros Hwf Hm Hfresh Hsz; unfold set_at, size in *.
  destruct (Z.of_nat (List.length (_cache self)) >=? max_size self)%Z eqn:E.
  - apply Z.geb_le in E.
    destruct (@evict_oldest_nonempty self Hwf) as (mid & -> & Hev & Hwm).
    { apply wf_nonempty; auto.
      destruct (_cache self); simpl in *; [lia | discriminate]. }
    destruct Hev as (k0 & t0 & _ & _ & Hk0 & Hcm & Ham & Hlen & Htm & Hmm).
    simpl; do 2 eexists; split; [reflexivity|].
    assert (Hfr : ~ In key (PyDict.keys (_cache mid))).
    { rewrite Hcm, in_keys_del; tauto. }
    split; [apply wf_insert; exact Hwm|]; simpl; repeat split; auto.
    + intros k; rewrite in_keys_set, Hcm, in_keys_del; tauto.
    + rewrite set_absent, length_app by assumption; simpl; lia.
  - rewrite Z.geb_leb in E; apply Z.leb_gt in E.
    simpl; do 2 eexists; split; [reflexivity|].
    split; [apply wf_insert; exact Hwf|]; simpl; repeat split; auto.
    + intros k; rewrite in_keys_set; tauto.
    + rewrite set_absent, length_app by assumption; simpl; lia.
Qed.

Lemma set_all_fresh_keys (calls : list (string * V)) : forall self w,
  wf self -> (1 <= max_size self)%Z ->
  NoDup (map fst calls) ->
  (forall k, In k (map fst calls) -> ~ In k (PyDict.keys (_cache self))) ->
  (size self <= max_size self)%Z ->
  exists self' w',
    set_all self calls w = Done (self', w') /\
    size self' =
      Z.min (size self + Z.of_nat (List.length calls)) (max_size self).
Proof.
  induction calls as [|[k v] calls IH]; intros self w Hwf Hm Hnd Hfr Hsz;
    simpl.
  - do 2 eexists; split; [reflexivity|]; lia.
  - inversion Hnd as [|? ? Hk Hnd']; subst.
    destruct (@set_at_fresh_key self k v None w) as
      (s1 & w1 & -> & Hwf1 & Hm1 & Hk1 & Hs1); auto.
    { apply Hfr; simpl; auto. }
    destruct (IH s1 w1) as (s2 & w2 & -> & Hs2); auto; try lia.
    + intros k' Hk' Hin; apply Hk1 in Hin as [->|Hin]; [contradiction|].
      apply (Hfr k'); simpl; auto.
    + do 2 eexists; split; [reflexivity|]. lia.
Qed.

(** C5 (as the code behaves), for a cache of capacity [max_size >= 1]:
    (1) a [set] on a well-formed cache that holds exactly [max_size] entries
    first removes exactly one entry, one whose access time is the smallest,
    and then inserts the new one; (2) starting from the empty cache, after
    [set] calls on pairwise distinct keys, more of them than [max_size],
    [size()] is exactly [max_size]. *)
Theorem set_evicts_oldest_and_bounds_size (ttl0 m : Z) :
  (1 <= m)%Z ->
  (forall self key v ttl w,
     max_size self = m -> wf self -> size self = m ->
     exists mid,
       _evict_oldest self = Done mid /\ evicted_oldest self mid /\
       set_at self key v ttl w =
       Done (Make (default_ttl self) m
               (PyDict.set key
                  (Entry v (clock w (ticks w)
                            + inject_Z (ttl_or_default ttl self)))
                  (_cache mid))
               (PyDict.set key (clock w (S (ticks w))) (_access_times mid)),
             World (clock w) (S (S (ticks w))))) /\
  (forall calls w,
     NoDup (map fst calls) -> (m < Z.of_nat (List.length calls))%Z ->
     exists self' w',
       set_all (init V ttl0 m) calls w = Done (self', w') /\
       size self' = m).
Proof.
  intros Hm; split.
  - intros self key v ttl w Hmax Hwf Hsz.
    destruct (@evict_oldest_nonempty self Hwf) as (mid & Hev & Hspec & _).
    { apply wf_nonempty; auto. unfold size in Hsz.
      destruct (_cache self); simpl in *; [lia | discriminate]. }
    exists mid; repeat split; auto.
    unfold set_at; unfold size in Hsz; rewrite Hsz, Hmax.
    replace (m >=? m)%Z with true by (symmetry; apply Z.geb_le; lia).
    rewrite Hev; simpl.
    destruct Hspec as (k0 & t0 & _ & _ & _ & _ & _ & _ & Htm & Hmm).
    unfold ttl_or_default; rewrite Htm, Hmm, Hmax; reflexivity.
  - intros calls w Hnd Hlen.
    destruct (@set_all_fresh_keys calls (init V ttl0 m) w) as
      (s & w' & Hrun & Hs); simpl; auto.
    + repeat split; simpl; try constructor; tauto.
    + unfold size; simpl; lia.
    + exists s, w'; split; auto.
      rewrite Hs; unfold size; simpl; lia.
Qed.

End CacheFacts.

Lemma get_serves_until_expiry_witness :
  let self := MemoryCache.Make 300 2 [("k"%string, MemoryCache.Entry 7%Z 5)]
                               [("k"%string, 1)] in
  (MemoryCache.get_at self "k"%string (World (fun _ => 5) 0) =
     (Some 7%Z,
      MemoryCache.Make 300 2 [("k"%string, MemoryCache.Entry 7%Z 5)]
                       [("k"%string, 5)],
      World (fun _ => 5) 2)) /\
  (exists self',
     MemoryCache.get_at self "k"%string (World (fun _ => 6) 0) =
       (None, self', World (fun _ => 6) 1) /\
     PyDict.mem "k"%string (MemoryCache._cache self') = false /\
     PyDict.mem "k"%string (MemoryCache._access_times self') = false).
Proof.
  intros self; split.
  - apply (get_serves_until_expiry self "k"%string (World (fun _ => 5) 0) eq_refl).
    unfold Qle; simpl; lia.
  - apply (get_serves_until_expiry self "k"%string (World (fun _ => 6) 0) eq_refl).
    unfold Qlt; simpl; lia.
Defined.

(** C6 fails on the code at the expiry instant itself: with
    [expires_at = 5] and a clock that reads 5 we have [now >= expires_at],
    yet [get] returns the stored value and keeps the entry. *)
Lemma get_at_expiry_instant_still_served :
  let self := MemoryCache.Make 300 2 [("k"%string, MemoryCache.Entry 7%Z 5)]
                               [("k"%string, 1)] in
  let w := World (fun _ => 5) 0 in
  5 <= clock w (ticks w) /\
  fst (fst (MemoryCache.get_at self "k"%string w)) = Some 7%Z /\
  PyDict.mem "k"%string
    (MemoryCache._cache (snd (fst (MemoryCache.get_at self "k"%string w)))) = true.
Proof.
  simpl; repeat split. unfold Qle; simpl; lia.
Qed.

Lemma set_evicts_oldest_and_bounds_size_witness :
  exists self' w',
    MemoryCache.set_all (MemoryCache.init Z 300 2)
      [("a"%string, 1%Z); ("b"%string, 2%Z); ("c"%string, 3%Z)]
      (World (fun i => inject_Z (Z.of_nat i)) 0) = Done (self', w') /\
    MemoryCache.size self' = 2%Z.
Proof.
  destruct (@set_evicts_oldest_and_bounds_size Z 300 2 ltac:(lia))
    as [_ H].
  apply H; simpl; [|lia].
  repeat constructor; simpl; intuition discriminate.
Defined.

(** C5 fails on the code for a cache of capacity zero: the empty store
    "already holds [max_size] entries", [_evict_oldest] finds nothing to
    remove, and after one [set] the size is 1, not [max_size]. *)
Lemma set_on_zero_capacity_grows :
  let c0 := MemoryCache.init Z 300 0 in
  let w := World (fun i => inject_Z (Z.of_nat i)) 0 in
  MemoryCache.size c0 = MemoryCache.max_size c0 /\
  MemoryCache._evict_oldest c0 = Done c0 /\
  exists self' w',
    MemoryCache.set_all c0 [("a"%string, 1%Z)] w = Done (self', w') /\
    MemoryCache.size self' = 1%Z /\
    MemoryCache.size self' <> MemoryCache.max_size self'.
Proof.
  simpl; repeat split; do 2 eexists; repeat split; simpl; discriminate.
Qed.

(** The scenario of the specification: capacity 2, [set(A)], [set(B)],
    [set(C)] evicts [A]; then [get(A)] misses and [get(B)] hits. *)
Example cache_scenario :
  let w := World (fun i => inject_Z (Z.of_nat i)) 0 in
  match MemoryCache.set_all (MemoryCache.init Z 300 2)
          [("A"%string, 1%Z); ("B"%string, 2%Z); ("C"%string, 3%Z)] w with
  | Done (c, w') =>
      PyDict.keys (MemoryCache._cache c) = ["B"%string; "C"%string] /\
      fst (fst (MemoryCache.get_at c "A" w')) = None /\
      fst (fst (MemoryCache.get_at c "B" w')) = Some 2%Z
  | _ => False
  end.
Proof. vm_compute; repeat split. Qed.

(** ** RetryHandler *)

Section RetryFacts.
Import RetryHandler.
Variables (St Val Exc : Type).
Variable func : St -> (Val + Exc) * St.
Variable is_Exception : Exc -> bool.
Variable py_hash : Q -> Z.

Local Abbreviation loop := (loop func is_Exception py_hash).
Local Abbreviation retry := (retry func is_Exception py_hash).
Local Abbreviation event := (event Val Exc).

Implicit Types (tr : list event) (self : t).

Lemma calls_app tr tr' : calls (tr ++ tr') = (calls tr + calls tr')%nat.
Proof. unfold calls; rewrite filter_app, length_app; reflexivity. Qed.






End RetryFacts.



(** With a negative [max_retries] the loop body never runs and the fallback
    is what [retry] raises. *)
Example retry_negative_max_retries :
  RetryHandler.result
    (RetryHandler.retry (fun n : nat => (@inl nat nat n, n))
       (fun _ => true) (fun _ => 0%Z)
       (RetryHandler.Make (-1) 1 60) 0%nat (World (fun _ => 0) 0))
  = RetryHandler.UnknownError.
Proof. reflexivity. Qed.

(** ** HTTPClientHelper.parse_rate_limit *)

Section ParseRateLimitFacts.
Import HTTPClientHelper.
Variable int_of_str : string -> option Z.
Variable float_of_str : string -> option Q.

Local Abbreviation parse := (parse_rate_limit int_of_str float_of_str).

(** C2, at the input of the repository's own test for empty headers: with
    no header at all every lookup falls back to the integer 0, no conversion
    fails, and the result is a populated record of zeros, not [None]. *)
Theorem parse_rate_limit_empty_headers :
  parse_rate_limit int_of_str float_of_str [] = Some (Info 0 0 0 0).
Proof. reflexivity. Qed.

(** The same for any header that is missing: its field silently reads 0. *)
Lemma parse_rate_limit_missing_reset headers l r :
  PyDict.get "x-ratelimit-limit" headers = Some l ->
  PyDict.get "x-ratelimit-remaining" headers = Some r ->
  PyDict.get "x-ratelimit-reset" headers = None ->
  forall zl zr, int_of_str l = Some zl -> int_of_str r = Some zr ->
  parse headers = Some (Info zl zr 0 (zl - zr)).
Proof.
  intros Hl Hr Ht zl zr Hzl Hzr.
  unfold parse_rate_limit, headers_get; rewrite Hl, Hr, Ht; simpl.
  rewrite Hzl, Hzr; reflexivity.
Qed.

(** The part of C2 the code does satisfy: all three headers present and
    convertible gives the record with [used = limit - remaining]. *)
Lemma parse_rate_limit_all_numeric headers l r t zl zr qt :
  PyDict.get "x-ratelimit-limit" headers = Some l ->
  PyDict.get "x-ratelimit-remaining" headers = Some r ->
  PyDict.get "x-ratelimit-reset" headers = Some t ->
  int_of_str l = Some zl -> int_of_str r = Some zr ->
  float_of_str t = Some qt ->
  parse headers = Some (Info zl zr qt (zl - zr)).
Proof.
  intros Hl Hr Ht Hzl Hzr Hqt.
  unfold parse_rate_limit, headers_get; rewrite Hl, Hr, Ht; simpl.
  rewrite Hzl, Hzr, Hqt; reflexivity.
Qed.

(** A header that is present but does not convert gives [None]. *)
Lemma parse_rate_limit_not_numeric headers :
  (exists l, PyDict.get "x-ratelimit-limit" headers = Some l /\
             int_of_str l = None) \/
  (exists r, PyDict.get "x-ratelimit-remaining" headers = Some r /\
             int_of_str r = None) \/
  (exists t, PyDict.get "x-ratelimit-reset" headers = Some t /\
             float_of_str t = None) ->
  parse headers = None.
Proof.
  unfold parse_rate_limit, headers_get.
  intros [(l & Hl & E)|[(r & Hr & E)|(t & Ht & E)]].
  - rewrite Hl; simpl; rewrite E; reflexivity.
  - rewrite Hr; simpl; rewrite E.
    destruct (to_int _ _); reflexivity.
  - rewrite Ht; simpl; rewrite E.
    destruct (to_int _ _); [destruct (to_int _ _)|]; reflexivity.
Qed.

End ParseRateLimitFacts.

Example parse_rate_limit_spec_example :
  HTTPClientHelper.parse_rate_limit
    HTTPClientHelper.decimal_int HTTPClientHelper.decimal_float
    [("x-ratelimit-limit", "60"); ("x-ratelimit-remaining", "59");
     ("x-ratelimit-reset", "100")]%string
  = Some (Info 60 59 100 1).
Proof. reflexivity. Qed.

(** The repository's test for partial headers expects [None] here. *)
Example parse_rate_limit_partial_headers :
  HTTPClientHelper.parse_rate_limit
    HTTPClientHelper.decimal_int HTTPClientHelper.decimal_float
    [("x-ratelimit-limit", "60"); ("x-ratelimit-remaining", "59")]%string
  = Some (Info 60 59 0 1).
Proof. reflexivity. Qed.

(** ** HTTPClientHelper.get_error_message *)

Section ErrorMessageFacts.
Import Json HTTPClientHelper.


End ErrorMessageFacts.



(** An object with and without the field. *)
Example get_error_message_object :
  let q := String (Json.char_of 34) EmptyString in
  HTTPClientHelper.get_error_message
    ("{" ++ q ++ "error" ++ q ++ ": " ++ q ++ "Bad Request" ++ q ++ ", "
         ++ q ++ "message" ++ q ++ ": " ++ q ++ "Invalid input" ++ q ++ "}")
    = Some (Json.JStr "Invalid input") /\
  HTTPClientHelper.get_error_message
    ("{" ++ q ++ "error" ++ q ++ ": " ++ q ++ "Bad Request" ++ q ++ "}")
    = Some (Json.JStr "{'error': 'Bad Request'}").
Proof. split; reflexivity. Qed.

(** ** Cache keys: [json.dumps(..., sort_keys=True)] *)

Section KeyOrder.

Lemma string_leb_trans (a b c : string) :
  String.leb a b = true -> String.leb b c = true -> String.leb a c = true.
Proof.
  unfold String.leb; revert b c.
  induction a as [|x a IH]; intros [|y b] [|z c]; simpl; auto;
    try discriminate.
  unfold Ascii.compare.
  destruct (N.compare_spec (N_of_ascii x) (N_of_ascii y)) as [E1|L1|G1];
    destruct (N.compare_spec (N_of_ascii y) (N_of_ascii z)) as [E2|L2|G2];
    destruct (N.compare_spec (N_of_ascii x) (N_of_ascii z)) as [E3|L3|G3];
    try lia; try discriminate; auto.
  apply IH.
Qed.

Lemma string_leb_false (a b : string) :
  String.leb a b = false -> String.leb b a = true.
Proof.
  intros H; destruct (String.leb_total a b) as [E|E]; congruence.
Qed.

End KeyOrder.

Section SortItems.
Import Json.
Implicit Types (x y : string * string) (l : list (string * string)).

Lemma insert_item_comm x y l :
  fst x <> fst y ->
  insert_item x (insert_item y l) = insert_item y (insert_item x l).
Proof.
  intros Hxy.
  assert (Hanti : String.leb (fst x) (fst y) = true ->
                  String.leb (fst y) (fst x) = true -> False).
  { intros A B; apply Hxy, String.leb_antisym; assumption. }
  induction l as [|z l IH]; simpl.
  - destruct (String.leb (fst x) (fst y)) eqn:A,
             (String.leb (fst y) (fst x)) eqn:B; auto.
    + exfalso; auto.
    + apply string_leb_false in A; congruence.
  - destruct (String.leb (fst y) (fst z)) eqn:Eyz,
             (String.leb (fst x) (fst z)) eqn:Exz; simpl;
      rewrite ?Eyz, ?Exz.
    + destruct (String.leb (fst x) (fst y)) eqn:A,
               (String.leb (fst y) (fst x)) eqn:B; auto.
      * exfalso; auto.
      * apply string_leb_false in A; congruence.
    + destruct (String.leb (fst x) (fst y)) eqn:A; auto.
      rewrite (string_leb_trans _ _ _ A Eyz) in Exz; discriminate.
    + destruct (String.leb (fst y) (fst x)) eqn:B; auto.
      rewrite (string_leb_trans _ _ _ B Exz) in Eyz; discriminate.
    + rewrite IH; reflexivity.
Qed.

(** Sorting forgets the order in which items with distinct keys arrive. *)
Lemma sort_items_perm l l' :
  Permutation l l' -> NoDup (map fst l) -> sort_items l = sort_items l'.
Proof.
  induction 1 as [|x l l' Hp IH|x y l|l l' l'' Hp1 IH1 Hp2 IH2];
    intros Hnd; simpl.
  - reflexivity.
  - inversion Hnd; subst; rewrite IH; auto.
  - apply insert_item_comm.
    inversion Hnd as [|? ? Hin _]; subst; simpl in Hin.
    intros E; apply Hin; left; congruence.
  - rewrite IH1, IH2; auto.
    eapply Permutation_NoDup; [|exact Hnd].
    apply Permutation_map; exact Hp1.
Qed.

End SortItems.

Section JsonInduction.
Import Json.
Variable P : json -> Prop.
Hypothesis HNull : P JNull.
Hypothesis HBool : forall b, P (JBool b).
Hypothesis HInt : forall z, P (JInt z).
Hypothesis HStr : forall s, P (JStr s).
Hypothesis HList : forall l, Forall P l -> P (JList l).
Hypothesis HDict : forall d, Forall (fun kv => P (snd kv)) d -> P (JDict d).

(** Induction on a value with the hypothesis available for every element
    of a list and every value of a dictionary. *)
Lemma json_nested_ind : forall j, P j.
Proof.
  fix IH 1; intros [|b|z|s|l|d];
    [apply HNull | apply HBool | apply HInt | apply HStr | | ].
  - apply HList; induction l as [|x l IHl]; constructor; [apply IH | exact IHl].
  - apply HDict; induction d as [|kv d IHd]; constructor;
      [apply IH | exact IHd].
Qed.

End JsonInduction.

Section DumpsFacts.
Import Json.

Lemma unique_keys_list l :
  unique_keys (JList l) <-> Forall unique_keys l.
Proof.
  induction l as [|x l IH]; simpl.
  - split; auto.
  - split.
    + intros [H1 H2]; constructor; [exact H1 | apply IH; exact H2].
    + intros H; inversion H; subst; split; [assumption | apply IH; assumption].
Qed.

Lemma unique_keys_dict d :
  unique_keys (JDict d) <->
  NoDup (map fst d) /\ Forall (fun kv => unique_keys (snd kv)) d.
Proof.
  simpl; apply and_iff_compat_l.
  induction d as [|kv d IH].
  - split; auto.
  - split.
    + intros [H1 H2]; constructor; [exact H1 | apply IH; exact H2].
    + intros H; inversion H; subst; split; [assumption | apply IH; assumption].
Qed.

Lemma same_list l1 l2 : same (JList l1) (JList l2) <-> Forall2 same l1 l2.
Proof.
  revert l2; induction l1 as [|x l1 IH]; intros [|y l2]; simpl.
  - split; auto.
  - split; [tauto | intros H; inversion H].
  - split; [tauto | intros H; inversion H].
  - split.
    + intros [H1 H2]; constructor; [exact H1 | apply IH; exact H2].
    + intros H; inversion H; subst; split; [assumption | apply IH; assumption].
Qed.

Lemma same_dict d1 d2 :
  same (JDict d1) (JDict d2) <->
  List.length d1 = List.length d2 /\ Forall (matched d2) d1.
Proof.
  simpl; apply and_iff_compat_l.
  induction d1 as [|kv d1 IH].
  - split; auto.
  - split.
    + intros [H1 H2]; constructor; [|apply IH; exact H2].
      destruct (PyDict.get (fst kv) d2) as [v'|] eqn:E; [|contradiction].
      exists v'; auto.
    + intros H; inversion H as [|? ? (v' & E & Hs) Hr]; subst; split.
      * rewrite E; exact Hs.
      * apply IH; exact Hr.
Qed.

Lemma get_some_in (V : Type) k (d : PyDict.dict V) v :
  PyDict.get k d = Some v -> In (k, v) d.
Proof.
  induction d as [|[k' v'] d IH]; simpl; [discriminate|].
  destruct (String.eqb_spec k k') as [->|N].
  - intros [= ->]; auto.
  - intros H; right; apply IH; exact H.
Qed.

Lemma get_in_unique (V : Type) k (d : PyDict.dict V) v :
  NoDup (map fst d) -> In (k, v) d -> PyDict.get k d = Some v.
Proof.
  induction d as [|[k' v'] d IH]; simpl; [tauto|].
  intros Hnd [[= -> ->]|Hin].
  - rewrite String.eqb_refl; reflexivity.
  - inversion Hnd as [|? ? Hk Hnd']; subst.
    destruct (String.eqb_spec k k') as [->|N]; [|apply IH; auto].
    exfalso; apply Hk; change k' with (fst (k', v)); apply in_map; exact Hin.
Qed.

Lemma rendered_keys d : map fst (rendered d) = map fst d.
Proof. unfold rendered; rewrite map_map; reflexivity. Qed.

Lemma dumps_dict d :
  dumps (JDict d) =
  ("{" ++ String.concat ", " (map render_item (sort_items (rendered d)))
       ++ "}")%string.
Proof. reflexivity. Qed.

Lemma dumps_list l :
  dumps (JList l) = ("[" ++ String.concat ", " (map dumps l) ++ "]")%string.
Proof. reflexivity. Qed.

(** Values that are the same up to insertion order serialize to the same
    text. *)
Lemma dumps_same : forall a b,
  unique_keys a -> unique_keys b -> same a b -> dumps a = dumps b.
Proof.
  induction a as [|x|x|x|l1 IH|d1 IH] using json_nested_ind;
    intros [|y|y|y|l2|d2] Ua Ub Hs; simpl in Hs; try contradiction;
    try (subst; reflexivity).
  - (* lists *)
    change (same (JList l1) (JList l2)) in Hs.
    apply same_list in Hs; apply unique_keys_list in Ua, Ub.
    rewrite !dumps_list; do 3 f_equal.
    revert Ua Ub IH; induction Hs as [|x y l1 l2 Hxy Hs IHs];
      intros Ua Ub IH; simpl; auto.
    inversion Ua; inversion Ub; inversion IH; subst.
    f_equal; auto.
  - (* dictionaries *)
    change (same (JDict d1) (JDict d2)) in Hs.
    apply same_dict in Hs as [Hlen Hm].
    apply unique_keys_dict in Ua as [Nd1 U1], Ub as [Nd2 U2].
    rewrite !dumps_dict; do 4 f_equal.
    apply sort_items_perm; [|rewrite rendered_keys; exact Nd1].
    apply NoDup_Permutation_bis.
    + apply NoDup_map_inv with (f := fst).
      rewrite rendered_keys; exact Nd1.
    + unfold rendered; rewrite !length_map; lia.
    + intros kr Hin; unfold rendered in Hin; apply in_map_iff in Hin.
      destruct Hin as (kv & <- & Hin).
      rewrite Forall_forall in IH, Hm, U1, U2.
      destruct (Hm kv Hin) as (v' & Hget & Hsame).
      apply get_some_in in Hget.
      rewrite (IH kv Hin v' (U1 kv Hin) (U2 _ Hget) Hsame).
      unfold rendered; apply in_map_iff.
      exists (fst kv, v'); auto.
Qed.

(** A value with distinct keys throughout is the same as itself. *)
Lemma same_refl : forall a, unique_keys a -> same a a.
Proof.
  induction a as [|x|x|x|l IH|d IH] using json_nested_ind; intros U;
    try exact I; try reflexivity.
  - apply same_list; apply unique_keys_list in U.
    induction l as [|x l IHl]; constructor;
      inversion U; inversion IH; subst; auto.
  - apply same_dict; split; auto.
    apply unique_keys_dict in U as [Nd U].
    rewrite Forall_forall in *; intros [k v] Hin.
    exists v; split; [apply get_in_unique; auto|].
    apply (IH (k, v) Hin), (U (k, v) Hin).
Qed.

(** Two dictionaries with the same value under every key are the same. *)
Lemma same_of_lookups d1 d2 :
  unique_keys (JDict d1) -> unique_keys (JDict d2) ->
  (forall k, PyDict.get k d1 = PyDict.get k d2) ->
  same (JDict d1) (JDict d2).
Proof.
  intros U1 U2 Hget.
  apply unique_keys_dict in U1 as [Nd1 U1], U2 as [Nd2 U2].
  assert (Hincl : forall da db : list (string * json),
             (forall k, PyDict.get k da = PyDict.get k db) ->
             incl (map fst da) (map fst db)).
  { intros da db H k Hk; apply mem_true_iff; apply mem_true_iff in Hk.
    unfold PyDict.mem in *; rewrite <- H; exact Hk. }
  apply same_dict; split.
  - apply Nat.le_antisymm; rewrite <- (length_map fst d1), <- (length_map fst d2);
      apply NoDup_incl_length; auto.
  - rewrite Forall_forall in *; intros [k v] Hin.
    exists v; split.
    + rewrite <- Hget; apply get_in_unique; auto.
    + apply same_refl, (U1 (k, v) Hin).
Qed.

End DumpsFacts.

(** ** Cache keys: the digest *)

Section DigestFacts.
Import Md5.

Lemma string_length_app (s t : string) :
  String.length (s ++ t) = (String.length s + String.length t)%nat.
Proof. induction s as [|c s IH]; simpl; auto. Qed.

Lemma length_bytes_le n : forall x, List.length (bytes_le n x) = n.
Proof. induction n as [|n IH]; intros x; simpl; auto. Qed.

Lemma length_hex bs : String.length (hex bs) = (2 * List.length bs)%nat.
Proof.
  induction bs as [|b bs IH]; [reflexivity|].
  change (hex (b :: bs)) with (Json.hex2 b ++ hex bs)%string.
  rewrite string_length_app, IH; simpl; lia.
Qed.

(** An MD5 digest is 16 bytes, 32 hexadecimal characters. *)
Lemma length_hexdigest data : String.length (hexdigest data) = 32%nat.
Proof.
  unfold hexdigest, digest; rewrite length_hex, !length_app, !length_bytes_le.
  reflexivity.
Qed.

End DigestFacts.

Section GenerateKeyFacts.
Import Json MemoryCache.

Lemma generate_key_same endpoint p1 p2 :
  unique_keys (JDict p1) -> unique_keys (JDict p2) ->
  same (JDict p1) (JDict p2) ->
  _generate_key endpoint (Some p1) = _generate_key endpoint (Some p2).
Proof.
  intros U1 U2 Hs.
  unfold _generate_key; do 2 f_equal.
  apply dumps_same.
  - apply unique_keys_dict; split.
    + repeat constructor; simpl; intuition discriminate.
    + constructor; [exact I|]; constructor; [exact U1|]; constructor.
  - apply unique_keys_dict; split.
    + repeat constructor; simpl; intuition discriminate.
    + constructor; [exact I|]; constructor; [exact U2|]; constructor.
  - apply same_dict; split; [reflexivity|].
    constructor; [|constructor; [|constructor]].
    + exists (JStr endpoint); split; reflexivity.
    + exists (JDict p2); split; [reflexivity | exact Hs].
Qed.

(** C9: for every endpoint and every two parameter dictionaries that are
    equal as mappings (the same keys, and under each key values that are the
    same up to the insertion order of nested dictionaries), [_generate_key]
    gives the same key, 32 characters long, whatever the order in which the
    parameters were inserted. *)
Theorem generate_key_order_independent endpoint p1 p2 :
  unique_keys (JDict p1) -> unique_keys (JDict p2) ->
  same (JDict p1) (JDict p2) ->
  _generate_key endpoint (Some p1) = _generate_key endpoint (Some p2) /\
  String.length (_generate_key endpoint (Some p1)) = 32%nat /\
  String.length (_generate_key endpoint (Some p2)) = 32%nat.
Proof.
  intros U1 U2 Hs; split; [apply generate_key_same; assumption|].
  split; apply length_hexdigest.
Qed.

(** The same in terms of lookups: two parameter dictionaries that answer
    every lookup alike get the same key. *)
Lemma generate_key_of_equal_lookups endpoint p1 p2 :
  unique_keys (JDict p1) -> unique_keys (JDict p2) ->
  (forall k, PyDict.get k p1 = PyDict.get k p2) ->
  _generate_key endpoint (Some p1) = _generate_key endpoint (Some p2).
Proof.
  intros U1 U2 H.
  apply generate_key_same; auto using same_of_lookups.
Qed.

End GenerateKeyFacts.

Lemma generate_key_order_independent_witness :
  let p1 := [("page"%string, Json.JInt 1); ("b"%string, Json.JStr "x")] in
  let p2 := [("b"%string, Json.JStr "x"); ("page"%string, Json.JInt 1)] in
  MemoryCache._generate_key "projects/npm/react" (Some p1)
  = MemoryCache._generate_key "projects/npm/react" (Some p2) /\
  String.length (MemoryCache._generate_key "projects/npm/react" (Some p1))
  = 32%nat /\
  String.length (MemoryCache._generate_key "projects/npm/react" (Some p2))
  = 32%nat.
Proof.
  intros p1 p2; apply generate_key_order_independent.
  - simpl; repeat split; repeat constructor; simpl; intuition discriminate.
  - simpl; repeat split; repeat constructor; simpl; intuition discriminate.
  - simpl; repeat split.
Defined.

(** The key Python computes for the same request. *)
Example generate_key_value :
  MemoryCache._generate_key "projects/npm/react"
    (Some [("page"%string, Json.JInt 1); ("b"%string, Json.JStr "x")])
  = "14d48bb76a554b172ab226f293e94ba2"%string.
Proof. vm_compute; reflexivity. Qed.

(** ** Several tasks on one RateLimiter *)

Section TaskFacts.
Import Tasks.

Lemma nth_error_update_same i t l :
  (i < List.length l)%nat -> nth_error (update i t l) i = Some t.
Proof.
  revert i; induction l as [|x l IH]; intros [|i] H; simpl in *;
    try lia; auto.
  apply IH; lia.
Qed.

Lemma nth_error_update_other i j t l :
  i <> j -> nth_error (update i t l) j = nth_error l j.
Proof.
  revert i j; induction l as [|x l IH]; intros [|i] [|j] H; simpl;
    auto; try congruence.
Qed.

Lemma settle_keeps_lock_invariant sys i n tp r k tp0 :
  lock_held_by_sleeper sys ->
  nth_error (tasks sys) i = Some k ->
  (k = Calling n /\ lock sys = None) \/ k = Sleeping n tp0 ->
  lock_held_by_sleeper (settle sys i n tp r).
Proof.
  intros Hinv Hi Hk.
  assert (Hlt : (i < List.length (tasks sys))%nat).
  { apply nth_error_Some; congruence. }
  assert (Hothers : forall j m tq, j <> i ->
            nth_error (tasks sys) j <> Some (Sleeping m tq)).
  { intros j m tq Hj Hs.
    assert (Hl : lock sys = Some j) by (apply Hinv; eauto).
    destruct Hk as [[_ Hfree]| ->]; [congruence|].
    assert (Hl' : lock sys = Some i) by (apply Hinv; eauto).
    congruence. }
  assert (Hgone : forall t, (forall m tq, t <> Sleeping m tq) ->
            lock_held_by_sleeper
              (System (limiter sys) None (update i t (tasks sys))) /\
            forall self, lock_held_by_sleeper
              (System self None (update i t (tasks sys)))).
  { intros t Ht; split; [|intros self]; intros j; simpl;
      (split; [discriminate|]); intros (m & tq & Hs);
      (destruct (Nat.eq_dec j i) as [-> |Hj];
       [rewrite nth_error_update_same in Hs by assumption;
        injection Hs as ->; exfalso; eapply Ht; reflexivity
       |rewrite nth_error_update_other in Hs by congruence;
        exfalso; eapply Hothers; eauto]). }
  unfold settle; destruct r as [self|e|]; auto.
  - destruct (RateLimiter.tokens self <? n)%Z.
    + intros j; simpl; split.
      * intros [= <-]; exists n, tp.
        apply nth_error_update_same; assumption.
      * intros (m & tq & Hs).
        destruct (Nat.eq_dec j i) as [-> |Hj]; auto.
        rewrite nth_error_update_other in Hs by congruence.
        exfalso; eapply Hothers; eauto.
    + apply Hgone; discriminate.
  - apply Hgone; discriminate.
Qed.

Lemma reachable_lock_invariant sys :
  reachable sys -> lock_held_by_sleeper sys.
Proof.
  induction 1 as [self reqs|sys i now sys' Hr IH Hstep].
  - intros i; simpl; split; [discriminate|].
    intros (n & tp & H); rewrite nth_error_map in H.
    destruct (nth_error reqs i); discriminate.
  - unfold resume in Hstep.
    destruct (nth_error (tasks sys) i) as [[n|n tp0| |e]|] eqn:Hi;
      try discriminate.
    + destruct (lock sys) eqn:Hl; [discriminate|].
      injection Hstep as <-.
      eapply settle_keeps_lock_invariant with (tp0 := 0); eauto.
    + injection Hstep as <-.
      eapply settle_keeps_lock_invariant with (tp0 := tp0); eauto.
Qed.

(** C7 (as the code behaves): in every state the tasks can reach, while a
    task is suspended in the waiting loop of [acquire], every other task
    that calls [acquire] on the same limiter is blocked at the lock, whatever
    the clock reads; the sleeping task itself can always be resumed, and
    [get_info], which takes no lock, is never kept waiting. *)
Theorem waiting_acquire_blocks_other_callers sys i n tp :
  reachable sys ->
  nth_error (tasks sys) i = Some (Sleeping n tp) ->
  (forall j m now,
     nth_error (tasks sys) j = Some (Calling m) -> resume sys j now = None) /\
  (forall now, resume sys i now <> None) /\
  (forall w, fst (RateLimiter.get_info (limiter sys) w) <> Pending).
Proof.
  intros Hr Hi; pose proof (reachable_lock_invariant Hr) as Hinv.
  assert (Hl : lock sys = Some i) by (apply Hinv; eauto).
  repeat split.
  - intros j m now Hj; unfold resume; rewrite Hj, Hl; reflexivity.
  - intros now; unfold resume; rewrite Hi; discriminate.
  - intros w; unfold RateLimiter.get_info; simpl.
    destruct (Qle_bool _ _); simpl; [discriminate|].
    destruct (RateLimiter.window_seconds (limiter sys) =? 0)%Z;
      discriminate.
Qed.

End TaskFacts.

(** One token left in a bucket of two; the first task asks for two and goes
    to sleep with the lock, the second asks for one. *)
Lemma waiting_acquire_blocks_other_callers_witness :
  let sys1 :=
    Tasks.System (RateLimiter.Make 2 60 1 0) (Some 0%nat)
                 [Tasks.Sleeping 2 (0 - 0); Tasks.Calling 1] in
  (forall j m now,
     nth_error (Tasks.tasks sys1) j = Some (Tasks.Calling m) ->
     Tasks.resume sys1 j now = None) /\
  (forall now, Tasks.resume sys1 0 now <> None) /\
  (forall w,
     fst (RateLimiter.get_info (Tasks.limiter sys1) w) <> Pending).
Proof.
  intros sys1.
  apply (@waiting_acquire_blocks_other_callers sys1 0%nat 2%Z (0 - 0)).
  - apply (@Tasks.reach_resume
             (Tasks.initial (RateLimiter.Make 2 60 1 0) [2; 1]%Z) 0%nat 0).
    + apply Tasks.reach_initial.
    + reflexivity.
  - reflexivity.
Defined.

(** C7 fails on the code: the second task needs one token and one token is
    there, yet while the first task sleeps in [acquire] no clock reading lets
    the second task run; before the first task started it could. *)
Lemma second_caller_blocked_while_first_sleeps :
  let sys0 := Tasks.initial (RateLimiter.Make 2 60 1 0) [2; 1]%Z in
  let sys1 :=
    Tasks.System (RateLimiter.Make 2 60 1 0) (Some 0%nat)
                 [Tasks.Sleeping 2 (0 - 0); Tasks.Calling 1] in
  Tasks.resume sys0 0 0 = Some sys1 /\
  RateLimiter.tokens (Tasks.limiter sys1) = 1%Z /\
  ~ (exists now sys2, Tasks.resume sys1 1 now = Some sys2) /\
  Tasks.resume sys0 1 0 =
    Some (Tasks.System (RateLimiter.Make 2 60 0 0) None
                       [Tasks.Calling 2; Tasks.Returned]).
Proof.
  repeat split. intros (now & sys2 & H); discriminate.
Qed.

(* ================================================================== *)
(** * Further properties of the code *)
(* ================================================================== *)

(** ** RateLimiter: errors, progress and starvation *)

Section LimiterMore.
Import RateLimiter.




Lemma refill_done self now :
  window_seconds self <> 0%Z -> exists self', refill self now = Done self'.
Proof.
  intros HW; unfold refill.
  destruct (Qle_bool _ _); [eauto|].
  destruct (window_seconds self =? 0)%Z eqn:E; [|eauto].
  apply Z.eqb_eq in E; contradiction.
Qed.

Lemma refill_full self now :
  inject_Z (window_seconds self) <= now - last_refill self ->
  refill self now =
  Done (Make (limit self) (window_seconds self) (limit self) now).
Proof.
  intros H; unfold refill; apply Qle_bool_iff in H; rewrite H; reflexivity.
Qed.

Lemma wait_enough fuel self n tp w tr :
  (n <= tokens self)%Z ->
  wait fuel self n tp w tr =
  Done (consume self n, w, tr ++ [EvConsume (tokens self - n)]).
Proof.
  intros H; rewrite wait_eq.
  replace (tokens self <? n)%Z with false; [reflexivity|].
  symmetry; apply Z.ltb_ge; exact H.
Qed.

Lemma elapsed_step self w s1 k :
  refill self (clock w (ticks w)) = Done s1 ->
  elapsed s1 (World (clock w) (S (ticks w))) k = elapsed self w (S k).
Proof.
  intros R; destruct (refill_capped _ _ R) as (_ & _ & Hlr & _).
  unfold elapsed; simpl.
  replace (ticks w + S k)%nat with (S (ticks w + k)) by lia.
  destruct k as [|k'].
  - rewrite Hlr, Nat.add_0_r; reflexivity.
  - replace (ticks w + S k')%nat with (S (ticks w + k')) by lia.
    reflexivity.
Qed.

Lemma due_step self w s1 k :
  refill self (clock w (ticks w)) = Done s1 ->
  due self w (S k) -> due s1 (World (clock w) (S (ticks w))) k.
Proof.
  intros R H; destruct (refill_capped _ _ R) as (_ & Hw & _).
  unfold due in *; rewrite Hw, (@elapsed_step self w s1 k R); exact H.
Qed.

Lemma wait_completes_when_due k : forall fuel self n tp w tr,
  window_seconds self <> 0%Z -> (n <= limit self)%Z ->
  due self w k -> (k < fuel)%nat ->
  exists r, wait fuel self n tp w tr = Done r.
Proof.
  induction k as [|k IH]; intros fuel self n tp w tr HW Hn Hdue Hk;
    (destruct (Z.ltb_spec (tokens self) n) as [Hlt|Hge];
       [|rewrite wait_enough by assumption; eauto]);
    (destruct fuel as [|fuel]; [lia|]);
    rewrite wait_eq;
    (replace (tokens self <? n)%Z with true by (symmetry; apply Z.ltb_lt; lia)).
  - unfold due, elapsed in Hdue; rewrite Nat.add_0_r in Hdue.
    rewrite (@refill_full self _ Hdue).
    rewrite wait_enough by (simpl; lia); eauto.
  - destruct (@refill_done self (clock w (ticks w)) HW) as (s1 & R).
    rewrite R; destruct (refill_capped _ _ R) as (Hl & Hw & Hlr & _).
    apply IH; rewrite ?Hl, ?Hw; auto; try lia.
    eapply due_step; eauto.
Qed.

(** A request within the capacity is granted at the latest at the first
    reading that comes a whole window after the one before it: with a
    non-zero window, [n <= limit] and such a reading [k] rounds ahead,
    [acquire] returns for every fuel of at least [k]. *)
Theorem acquire_completes_when_due k fuel self n w :
  window_seconds self <> 0%Z -> (n <= limit self)%Z ->
  due self w k -> (k <= fuel)%nat ->
  exists self' w' tr, acquire fuel self n w = Done (self', w', tr).
Proof.
  intros HW Hn Hdue Hk.
  assert (H : exists r, acquire fuel self n w = Done r).
  { unfold acquire; simpl; destruct k as [|k].
    - unfold due, elapsed in Hdue; rewrite Nat.add_0_r in Hdue.
      rewrite (@refill_full self _ Hdue).
      rewrite wait_enough by (simpl; lia); eauto.
    - destruct (@refill_done self (clock w (ticks w)) HW) as (s1 & R).
      rewrite R; destruct (refill_capped _ _ R) as (Hl & Hw & Hlr & _).
      apply wait_completes_when_due with (k := k);
        rewrite ?Hl, ?Hw; auto; try lia.
      eapply due_step; eauto. }
  destruct H as ([[self' w'] tr] & H); eauto.
Qed.

Lemma acquire_completes_when_due_witness :
  exists self' w' tr,
    acquire 2 (Make 1 60 0 0) 1
      (World (fun i => inject_Z (Z.of_nat (i * i * 30))) 1)
    = Done (self', w', tr).
Proof.
  apply acquire_completes_when_due with (k := 2%nat); simpl;
    [discriminate | lia | | lia].
  unfold due, elapsed, Qle; simpl; lia.
Defined.







(** The same when every sleep lasts exactly as long as [acquire] asked:
    arriving 30 seconds after the last refill, the caller sleeps 31 and 30
    seconds in turn and gains nothing. *)
Example acquire_punctual_sleeps :
  let c := fun i => inject_Z (30 + 61 * Z.of_nat (i / 2)
                              + 31 * Z.of_nat (i mod 2)) in
  acquire 6 (Make 1 60 0 0) 1 (World c 0) = Pending /\
  refill (Make 1 60 0 0) (c 0%nat) = Done (Make 1 60 0 (c 0%nat)) /\
  inject_Z 60 - (c 0%nat - 0) + 1 == c 1%nat - c 0%nat /\
  inject_Z 60 - (c 1%nat - c 0%nat) + 1 == c 2%nat - c 1%nat /\
  inject_Z 60 - (c 2%nat - c 1%nat) + 1 == c 3%nat - c 2%nat.
Proof. repeat split. Qed.

(** ** RateLimiter.get_info *)

Lemma get_info_as_refill self w :
  match refill self (clock w (ticks w)) with
  | Done self' =>
      fst (get_info self w) =
      Done (Info (limit self) (tokens self')
                 (last_refill self + inject_Z (window_seconds self))
                 (limit self - tokens self'))
  | Raised e => fst (get_info self w) = Raised e
  | Pending => False
  end.
Proof.
  unfold refill, get_info; simpl.
  destruct (Qle_bool _ _); simpl.
  - rewrite Z.sub_diag; reflexivity.
  - destruct (window_seconds self =? 0)%Z; reflexivity.
Qed.

(** [get_info] reports as [remaining] exactly the count the refill step of
    an [acquire] would compute at the same reading, with
    [used = limit - remaining] and [reset = last_refill + window_seconds];
    it raises exactly when that refill would. *)
Theorem get_info_agrees_with_refill self w :
  match refill self (clock w (ticks w)) with
  | Done self' =>
      fst (get_info self w) =
      Done (Info (limit self) (tokens self')
                 (last_refill self + inject_Z (window_seconds self))
                 (limit self - tokens self'))
  | Raised e => fst (get_info self w) = Raised e
  | Pending => False
  end.
Proof. apply get_info_as_refill. Qed.

(** On a limiter whose count is within bounds, read when time has not gone
    backwards since the last refill, [get_info] answers with
    [0 <= remaining <= limit] and [0 <= used <= limit]. *)
Theorem get_info_in_bounds self w info :
  (0 <= limit self)%Z -> in_bounds self (tokens self) ->
  last_refill self <= clock w (ticks w) ->
  fst (get_info self w) = Done info ->
  info_limit info = limit self /\
  (0 <= info_remaining info <= limit self)%Z /\
  (0 <= info_used info <= limit self)%Z /\
  (info_used info + info_remaining info = limit self)%Z.
Proof.
  intros Hl Hb Hnow Hinfo.
  pose proof (get_info_as_refill self w) as H.
  destruct (refill self (clock w (ticks w))) as [s1|e|] eqn:R;
    [|congruence|contradiction].
  pose proof (refill_in_bounds Hl Hb Hnow R) as Hb1.
  destruct (refill_capped _ _ R) as (Hl1 & _).
  unfold in_bounds in Hb1; rewrite Hl1 in Hb1.
  rewrite H in Hinfo; injection Hinfo as <-; simpl; lia.
Qed.

Lemma get_info_in_bounds_witness :
  let info := Info 10 7 (0 + inject_Z 60) (10 - 7) in
  info_limit info = 10%Z /\
  (0 <= info_remaining info <= 10)%Z /\
  (0 <= info_used info <= 10)%Z /\
  (info_used info + info_remaining info = 10)%Z.
Proof.
  apply (@get_info_in_bounds (Make 10 60 2 0) (World (fun _ => 30) 0)).
  - simpl; lia.
  - unfold in_bounds; simpl; lia.
  - unfold Qle; simpl; lia.
  - reflexivity.
Defined.

End LimiterMore.

(** ** MemoryCache: invariants of every run *)

Section CacheMore.
Import MemoryCache.
Variable V : Type.
Implicit Types (self : t V) (key : string) (w : world).

Lemma length_set_le (A : Type) k (v : A) (d : PyDict.dict A) :
  (List.length (PyDict.set k v d) <= S (List.length d))%nat.
Proof.
  induction d as [|[k' v'] d IH]; simpl; [lia|].
  destruct (String.eqb k k'); simpl; lia.
Qed.

Lemma length_del_le (A : Type) k (d : PyDict.dict A) :
  (List.length (PyDict.del k d) <= List.length d)%nat.
Proof. apply filter_length_le. Qed.

Lemma get_del_other (A : Type) k k' (d : PyDict.dict A) :
  k' <> k -> PyDict.get k' (PyDict.del k d) = PyDict.get k' d.
Proof.
  intros N; induction d as [|[k0 v0] d IH]; simpl; auto.
  destruct (String.eqb_spec k k0) as [->|N0]; simpl.
  - destruct (String.eqb_spec k' k0); [contradiction | exact IH].
  - destruct (String.eqb k' k0); auto.
Qed.

Lemma get_set_other (A : Type) k k' (v : A) (d : PyDict.dict A) :
  k' <> k -> PyDict.get k' (PyDict.set k v d) = PyDict.get k' d.
Proof.
  intros N; induction d as [|[k0 v0] d IH]; simpl.
  - destruct (String.eqb_spec k' k); [contradiction | reflexivity].
  - destruct (String.eqb_spec k k0) as [->|N0]; simpl.
    + destruct (String.eqb_spec k' k0); [contradiction | reflexivity].
    + destruct (String.eqb k' k0); auto.
Qed.

Lemma wf_del self k :
  wf self ->
  wf (Make (default_ttl self) (max_size self)
           (PyDict.del k (_cache self)) (PyDict.del k (_access_times self))).
Proof.
  intros (Hc & Ha & Hk); unfold wf; cbn [_cache _access_times].
  repeat split; try apply NoDup_keys_del; auto;
    rewrite !in_keys_del; intros [H1 H2]; split; auto; apply Hk; auto.
Qed.

Lemma wf_maps t1 m1 t2 m2 (c : PyDict.dict (CacheEntry V))
  (a : PyDict.dict Q) :
  wf (Make t1 m1 c a) -> wf (Make t2 m2 c a).
Proof. exact (fun H => H). Qed.

(** What [set] does to a well-formed cache: it never raises; it first
    leaves the store alone or evicts one oldest entry, then writes. *)
Lemma set_at_spec self key v ttl w :
  wf self ->
  exists mid,
    wf mid /\
    (((size self < max_size self)%Z \/ _cache self = []) /\ mid = self \/
     (max_size self <= size self)%Z /\ evicted_oldest self mid) /\
    set_at self key v ttl w =
    Done (Make (default_ttl self) (max_size self)
            (PyDict.set key
               (Entry v (clock w (ticks w)
                         + inject_Z (ttl_or_default ttl self)))
               (_cache mid))
            (PyDict.set key (clock w (S (ticks w))) (_access_times mid)),
          World (clock w) (S (S (ticks w)))).
Proof.
  intros Hwf; unfold set_at, size.
  destruct (Z.of_nat (List.length (_cache self)) >=? max_size self)%Z eqn:E.
  - apply Z.geb_le in E.
    destruct (_access_times self) as [|x l] eqn:Ea.
    + assert (Hc : _cache self = []).
      { destruct Hwf as (_ & _ & Hk).
        destruct (_cache self) as [|[k e] c]; auto.
        specialize (Hk k); rewrite Ea in Hk; simpl in Hk.
        exfalso; apply Hk; auto. }
      exists self; split; [exact Hwf|]; split; [left; auto|].
      unfold _evict_oldest; rewrite Ea; simpl; rewrite ?Ea; reflexivity.
    + destruct (@evict_oldest_nonempty V self Hwf)
        as (mid & Hev & Hspec & Hwm); [rewrite Ea; discriminate|].
      exists mid; split; [exact Hwm|]; split; [right; split; auto|].
      rewrite Hev.
      destruct Hspec as (k0 & t0 & _ & _ & _ & _ & _ & _ & Htm & Hmm).
      simpl; unfold ttl_or_default; rewrite Htm, Hmm; reflexivity.
  - rewrite Z.geb_leb in E; apply Z.leb_gt in E.
    exists self; split; [exact Hwf|]; split; [left; auto | reflexivity].
Qed.

Lemma get_at_keeps_wf self key w :
  wf self -> wf (snd (fst (get_at self key w))).
Proof.
  intros Hwf; unfold get_at.
  destruct (PyDict.get key (_cache self)) as [entry|] eqn:G; [|exact Hwf].
  unfold is_expired; simpl.
  destruct (Qlt_bool (expires_at entry) (clock w (ticks w))); simpl.
  - replace (if PyDict.mem key (_access_times self)
             then PyDict.del key (_access_times self)
             else _access_times self)
      with (PyDict.del key (_access_times self)).
    + apply wf_del; exact Hwf.
    + destruct (PyDict.mem key (_access_times self)) eqn:M; auto.
      apply del_absent, mem_false_iff; exact M.
  - destruct Hwf as (Hc & Ha & Hk); unfold wf; cbn [_cache _access_times].
    assert (Hin : In key (PyDict.keys (_access_times self))).
    { apply Hk; eapply get_some_in_keys; eauto. }
    rewrite keys_set_present by assumption; auto.
Qed.

Lemma get_at_size_le self key w :
  (size (snd (fst (get_at self key w))) <= size self)%Z.
Proof.
  unfold get_at, size.
  destruct (PyDict.get key (_cache self)) as [entry|]; [|simpl; lia].
  unfold is_expired; simpl.
  destruct (Qlt_bool (expires_at entry) (clock w (ticks w))); simpl; [|lia].
  pose proof (length_del_le key (_cache self)); lia.
Qed.

Lemma get_at_keeps_config self key w :
  max_size (snd (fst (get_at self key w))) = max_size self.
Proof.
  unfold get_at.
  destruct (PyDict.get key (_cache self)) as [entry|]; [|reflexivity].
  unfold is_expired; simpl.
  destruct (Qlt_bool (expires_at entry) (clock w (ticks w))); reflexivity.
Qed.

Lemma set_at_size_le self key v ttl w self' w' :
  wf self -> (1 <= max_size self)%Z -> (size self <= max_size self)%Z ->
  set_at self key v ttl w = Done (self', w') ->
  (size self' <= max_size self)%Z.
Proof.
  intros Hwf Hm Hs Hset.
  destruct (@set_at_spec self key v ttl w Hwf) as (mid & _ & Hmid & Heq).
  rewrite Heq in Hset; injection Hset as <- <-; unfold size in *; simpl.
  pose proof (length_set_le key
    (Entry v (clock w (ticks w) + inject_Z (ttl_or_default ttl self)))
    (_cache mid)) as Hle.
  destruct Hmid as [[[Hlt|He] ->]|[Hge Hev]].
  - lia.
  - rewrite He in *; simpl in *; lia.
  - destruct Hev as (k0 & t0 & _ & _ & _ & _ & _ & Hlen & _); lia.
Qed.

Lemma set_at_done self key v ttl w :
  wf self ->
  exists self',
    set_at self key v ttl w = Done (self', World (clock w) (S (S (ticks w))))
    /\ wf self' /\ max_size self' = max_size self /\
    default_ttl self' = default_ttl self /\
    PyDict.get key (_cache self') =
      Some (Entry v (clock w (ticks w)
                     + inject_Z (ttl_or_default ttl self))) /\
    PyDict.get key (_access_times self') = Some (clock w (S (ticks w))).
Proof.
  intros Hwf.
  destruct (@set_at_spec self key v ttl w Hwf) as (mid & Hwm & _ & Heq).
  eexists; split; [exact Heq|]; cbn [_cache _access_times max_size default_ttl].
  split; [apply (@wf_maps (default_ttl mid) (max_size mid)), wf_insert, Hwm|].
  split; [reflexivity|]; split; [reflexivity|]; split; apply get_set_same.
Qed.

Lemma wf_empty (t0 m0 : Z) : wf (Make t0 m0 (@nil (string * CacheEntry V)) []).
Proof. repeat split; simpl; try constructor; tauto. Qed.

Lemma run_ops_invariant (ops : list (op V)) : forall self w,
  wf self ->
  exists self' w',
    run_ops self ops w = Done (self', w') /\ wf self' /\
    max_size self' = max_size self /\
    ((1 <= max_size self)%Z -> (size self <= max_size self)%Z ->
     (size self' <= max_size self)%Z).
Proof.
  induction ops as [|[key v ttl|key|] ops IH]; intros self w Hwf; simpl.
  - exists self, w; split; [reflexivity|]; split; [exact Hwf|]; split; auto.
  - destruct (@set_at_done self key v ttl w Hwf)
      as (s1 & Heq & Hwf1 & Hm1 & _).
    rewrite Heq.
    destruct (IH s1 (World (clock w) (S (S (ticks w)))) Hwf1)
      as (s2 & w2 & Hrun & Hwf2 & Hm2 & Hs2).
    exists s2, w2; split; [exact Hrun|]; split; [exact Hwf2|].
    split; [congruence|].
    intros Hm Hs; rewrite <- Hm1; apply Hs2; rewrite Hm1; auto.
    eapply set_at_size_le; eauto.
  - pose proof (@get_at_keeps_wf self key w Hwf) as Hwf1.
    pose proof (get_at_size_le self key w) as Hs1.
    pose proof (get_at_keeps_config self key w) as Hm1.
    destruct (get_at self key w) as [[r s1] w1]; simpl in *.
    destruct (IH s1 w1 Hwf1) as (s2 & w2 & Hrun & Hwf2 & Hm2 & Hs2).
    exists s2, w2; split; [exact Hrun|]; split; [exact Hwf2|].
    split; [congruence|].
    intros Hm Hs; rewrite <- Hm1; apply Hs2; rewrite Hm1; auto; lia.
  - destruct (IH (clear self) w (wf_empty _ _))
      as (s2 & w2 & Hrun & Hwf2 & Hm2 & Hs2).
    exists s2, w2; split; [exact Hrun|]; split; [exact Hwf2|].
    split; [exact Hm2|].
    intros Hm Hs; apply Hs2; auto; unfold size; simpl; lia.
Qed.


(** With a capacity of at least one, the size of the store never exceeds
    [max_size], whatever calls of [set], [get] and [clear] are made on a
    new cache, also when [set] is given a key that is already stored. *)
Theorem cache_size_never_exceeds_max_size
  (ttl0 m : Z) (ops : list (op V)) w self' w' :
  (1 <= m)%Z ->
  run_ops (init V ttl0 m) ops w = Done (self', w') ->
  (size self' <= m)%Z.
Proof.
  intros Hm Hrun.
  destruct (@run_ops_invariant ops (init V ttl0 m) w (wf_empty _ _))
    as (s & w2 & Hrun2 & _ & _ & Hs).
  rewrite Hrun in Hrun2; injection Hrun2 as <- <-.
  apply Hs; simpl; auto; unfold size; simpl; lia.
Qed.

(** ** MemoryCache: writing and reading back *)

Lemma get_at_of_entry self key entry w :
  PyDict.get key (_cache self) = Some entry ->
  fst (fst (get_at self key w)) =
  if Qlt_bool (expires_at entry) (clock w (ticks w)) then None
  else Some (data entry).
Proof.
  intros G; unfold get_at; rewrite G; unfold is_expired; simpl.
  destruct (Qlt_bool _ _); reflexivity.
Qed.

Lemma set_at_then_get_at self key v ttl w :
  wf self ->
  exists self',
    set_at self key v ttl w = Done (self', World (clock w) (2 + ticks w)) /\
    (clock w (2 + ticks w)
       <= clock w (ticks w) + inject_Z (ttl_or_default ttl self) ->
     fst (fst (get_at self' key (World (clock w) (2 + ticks w)))) = Some v) /\
    (clock w (ticks w) + inject_Z (ttl_or_default ttl self)
       < clock w (2 + ticks w) ->
     fst (fst (get_at self' key (World (clock w) (2 + ticks w)))) = None).
Proof.
  intros Hwf.
  destruct (@set_at_done self key v ttl w Hwf)
    as (s1 & Heq & _ & _ & _ & Hget & _).
  exists s1; split; [exact Heq|].
  rewrite (@get_at_of_entry s1 key _ _ Hget); cbn [expires_at data clock ticks].
  split; intros H.
  - apply Qlt_bool_false in H; rewrite H; reflexivity.
  - apply Qlt_bool_true in H; rewrite H; reflexivity.
Qed.


(** The same through [set] and [get] themselves: a value stored under an
    endpoint and a parameter dictionary is found again under the same
    endpoint and the same parameters inserted in another order. *)
Theorem set_then_get_any_parameter_order self endpoint p1 p2 v ttl w :
  wf self ->
  Json.unique_keys (Json.JDict p1) -> Json.unique_keys (Json.JDict p2) ->
  Json.same (Json.JDict p1) (Json.JDict p2) ->
  exists self',
    set self endpoint (Some p1) v ttl w
      = Done (self', World (clock w) (2 + ticks w)) /\
    (clock w (2 + ticks w)
       <= clock w (ticks w) + inject_Z (ttl_or_default ttl self) ->
     fst (fst (get self' endpoint (Some p2) (World (clock w) (2 + ticks w))))
     = Some v).
Proof.
  intros Hwf U1 U2 Hs; unfold set, get.
  rewrite <- (@generate_key_same endpoint p1 p2 U1 U2 Hs).
  destruct (@set_at_then_get_at self
              (_generate_key endpoint (Some p1)) v ttl w Hwf)
    as (s1 & Heq & Hhit & _).
  exists s1; auto.
Qed.

(** ** MemoryCache: which entry is evicted *)

Lemma min_by_time_stays (post : list (string * Q)) : forall best,
  (forall y, In y post -> snd best <= snd y) ->
  min_by_time best post = best.
Proof.
  induction post as [|y post IH]; intros best H; simpl; auto.
  replace (Qlt_bool (snd y) (snd best)) with false.
  - apply IH; intros z Hz; apply H; simpl; auto.
  - symmetry; apply Qlt_bool_false, H; simpl; auto.
Qed.

Lemma min_by_time_first (pre : list (string * Q)) : forall best x post,
  (forall y, In y (best :: pre) -> snd x < snd y) ->
  (forall y, In y post -> snd x <= snd y) ->
  min_by_time best (pre ++ x :: post) = x.
Proof.
  induction pre as [|z pre IH]; intros best x post Hpre Hpost; simpl.
  - replace (Qlt_bool (snd x) (snd best)) with true.
    + apply min_by_time_stays; exact Hpost.
    + symmetry; apply Qlt_bool_true, Hpre; simpl; auto.
  - destruct (Qlt_bool (snd z) (snd best)); apply IH; auto;
      intros y [<-|Hy]; apply Hpre; simpl; auto.
Qed.

Lemma evict_oldest_first_min self pre k t post :
  wf self ->
  _access_times self = pre ++ (k, t) :: post ->
  (forall y, In y pre -> t < snd y) ->
  (forall y, In y post -> t <= snd y) ->
  _evict_oldest self =
  Done (Make (default_ttl self) (max_size self)
             (PyDict.del k (_cache self))
             (PyDict.del k (_access_times self))).
Proof.
  intros (_ & _ & Hk) Ha Hpre Hpost; unfold _evict_oldest.
  assert (Hin : In k (PyDict.keys (_cache self))).
  { apply Hk; rewrite Ha; unfold PyDict.keys; rewrite map_app, in_app_iff.
    right; simpl; auto. }
  apply mem_true_iff in Hin.
  rewrite Ha.
  destruct pre as [|x pre]; simpl.
  - rewrite (@min_by_time_stays post (k, t) Hpost); simpl.
    rewrite Hin; reflexivity.
  - rewrite (@min_by_time_first pre x (k, t) post); simpl.
    + rewrite Hin; reflexivity.
    + intros y Hy; apply Hpre; exact Hy.
    + exact Hpost.
Qed.

(** Ties are broken by age of insertion: [_evict_oldest] removes the first
    entry, in insertion order of the access-time map, whose access time is
    the smallest. *)
Theorem evict_oldest_takes_first_minimum self pre k t post :
  wf self ->
  _access_times self = pre ++ (k, t) :: post ->
  (forall y, In y pre -> t < snd y) ->
  (forall y, In y post -> t <= snd y) ->
  _evict_oldest self =
  Done (Make (default_ttl self) (max_size self)
             (PyDict.del k (_cache self))
             (PyDict.del k (_access_times self))).
Proof. apply evict_oldest_first_min. Qed.

Lemma in_set_other (A : Type) k k' (v v' : A) (d : PyDict.dict A) :
  k' <> k -> In (k', v') d -> In (k', v') (PyDict.set k v d).
Proof.
  intros N; induction d as [|[k0 v0] d IH]; simpl; [tauto|].
  intros Hin; destruct (String.eqb_spec k k0) as [E|E]; simpl.
  - destruct Hin as [H|H]; [|right; exact H].
    injection H as H1 H2; congruence.
  - destruct Hin as [H|H]; [left; exact H | right; apply IH; exact H].
Qed.

(** A hit protects the entry: after [get] served a key, stamping it with
    a time later than the access time of some other entry, the next [set]
    does not evict that key, whatever key it writes. *)
Theorem read_entry_survives_next_set
  self key entry other t' w key2 v ttl self2 w2 :
  wf self ->
  PyDict.get key (_cache self) = Some entry ->
  clock w (ticks w) <= expires_at entry ->
  other <> key -> PyDict.get other (_access_times self) = Some t' ->
  t' < clock w (S (ticks w)) ->
  set_at (snd (fst (get_at self key w))) key2 v ttl
         (snd (get_at self key w)) = Done (self2, w2) ->
  PyDict.mem key (_cache self2) = true.
Proof.
  intros Hwf G Hfresh Hother Ht' Hlt.
  pose proof (@get_at_keeps_wf self key w Hwf) as Hwf1.
  assert (Hkc : In key (PyDict.keys (_cache self))).
  { eapply get_some_in_keys; eauto. }
  unfold get_at in *; rewrite G in *; unfold is_expired in *; simpl in *.
  apply Qlt_bool_false in Hfresh; rewrite Hfresh in *; simpl in *.
  set (r1 := clock w (S (ticks w))) in *.
  set (self1 := Make (default_ttl self) (max_size self) (_cache self)
                     (PyDict.set key r1 (_access_times self))) in *.
  intros Hset.
  destruct (@set_at_spec self1 key2 v ttl
              (World (clock w) (S (S (ticks w)))) Hwf1)
    as (mid & _ & Hmid & Heq).
  rewrite Heq in Hset; injection Hset as <- _; cbn [_cache].
  apply mem_true_iff, in_keys_set; right.
  destruct Hmid as [[_ ->]|[_ Hev]]; [exact Hkc|].
  destruct Hev as (k0 & t0 & Hin0 & Hmin & _ & Hcm & _).
  rewrite Hcm; apply in_keys_del; split; [exact Hkc|].
  intros <-.
  assert (Hr1 : PyDict.get key (_access_times self1) = Some t0).
  { apply get_in_unique; [apply Hwf1 | exact Hin0]. }
  cbn [_access_times self1] in Hr1; rewrite get_set_same in Hr1.
  injection Hr1 as <-.
  assert (Hle : r1 <= t').
  { apply (Hmin other t'); cbn [_access_times self1].
    apply in_set_other; auto; apply get_some_in; exact Ht'. }
  exact (Qlt_not_le _ _ Hlt Hle).
Qed.

(** [get] touches no other key: whatever it does to the key it is asked
    for, every other key keeps its entry and its access time. *)
Theorem get_leaves_other_keys self key other w :
  other <> key ->
  PyDict.get other (_cache (snd (fst (get_at self key w))))
    = PyDict.get other (_cache self) /\
  PyDict.get other (_access_times (snd (fst (get_at self key w))))
    = PyDict.get other (_access_times self).
Proof.
  intros N; unfold get_at.
  destruct (PyDict.get key (_cache self)) as [entry|]; [|auto].
  unfold is_expired; simpl.
  destruct (Qlt_bool (expires_at entry) (clock w (ticks w))); simpl.
  - split; [apply get_del_other; exact N|].
    destruct (PyDict.mem key (_access_times self)); auto.
    apply get_del_other; exact N.
  - split; [reflexivity | apply get_set_other; exact N].
Qed.

(** ** CacheEntry.ttl *)

(** [ttl()] is never negative, it is 0 whenever [is_expired()] holds at
    the same instant, and otherwise it is the time left to [expires_at]. *)
Theorem ttl_against_is_expired (e : CacheEntry V) w :
  0 <= fst (ttl e w) /\
  (fst (is_expired e w) = true -> fst (ttl e w) = 0) /\
  (fst (is_expired e w) = false ->
   fst (ttl e w) == expires_at e - clock w (ticks w)).
Proof.
  unfold ttl, is_expired; simpl.
  set (left := expires_at e - clock w (ticks w)).
  destruct (Qlt_bool 0 left) eqn:E; simpl.
  - apply Qlt_bool_true in E; split; [apply Qlt_le_weak; exact E|].
    split; [|intros _; reflexivity].
    intros H; apply Qlt_bool_true in H; exfalso.
    unfold left, Qminus in E; apply <- Qlt_minus_iff in E.
    exact (Qlt_irrefl _ (Qlt_trans _ _ _ E H)).
  - apply Qlt_bool_false in E; split; [apply Qle_refl|].
    split; [intros _; reflexivity|].
    intros H; apply Qlt_bool_false in H.
    apply Qle_antisym; [|exact E].
    unfold left, Qminus; rewrite <- Qle_minus_iff; exact H.
Qed.

End CacheMore.

Ltac distinct_strings :=
  repeat (apply NoDup_cons; [simpl; intuition discriminate|]);
  apply NoDup_nil.

Ltac concrete_wf :=
  split; [simpl; distinct_strings|];
  split; [simpl; distinct_strings | intros k; simpl; tauto].

Lemma cache_size_never_exceeds_max_size_witness :
  let ops :=
    [MemoryCache.OpSet "a" 1%Z None; MemoryCache.OpSet "b" 2%Z None;
     MemoryCache.OpGet Z "a"; MemoryCache.OpSet "b" 3%Z (Some 5%Z);
     MemoryCache.OpSet "c" 4%Z None] in
  let w := World (fun i => inject_Z (Z.of_nat i)) 0 in
  exists self' w',
    MemoryCache.run_ops (MemoryCache.init Z 300 2) ops w = Done (self', w') /\
    (MemoryCache.size self' <= 2)%Z.
Proof.
  intros ops w.
  destruct (MemoryCache.run_ops (MemoryCache.init Z 300 2) ops w)
    as [[s w']|e|] eqn:R; [|vm_compute in R; discriminate..].
  exists s, w'; split; [reflexivity|].
  apply (@cache_size_never_exceeds_max_size Z 300 2 ops w s w');
    [lia | exact R].
Defined.


Lemma set_then_get_any_parameter_order_witness :
  let w := World (fun i => inject_Z (Z.of_nat i)) 0 in
  let p1 := [("page"%string, Json.JInt 1); ("q"%string, Json.JStr "x")] in
  let p2 := [("q"%string, Json.JStr "x"); ("page"%string, Json.JInt 1)] in
  exists self',
    MemoryCache.set (MemoryCache.init Z 300 2) "search" (Some p1) 7%Z None w
      = Done (self', World (clock w) 2) /\
    fst (fst (MemoryCache.get self' "search" (Some p2) (World (clock w) 2)))
    = Some 7%Z.
Proof.
  intros w p1 p2.
  destruct (@set_then_get_any_parameter_order Z (MemoryCache.init Z 300 2)
              "search"%string p1 p2 7%Z None w) as (s & Hset & Hhit).
  - concrete_wf.
  - simpl; repeat split; repeat constructor; simpl; intuition discriminate.
  - simpl; repeat split; repeat constructor; simpl; intuition discriminate.
  - simpl; repeat split.
  - exists s; split; [exact Hset|].
    apply Hhit; unfold Qle; simpl; lia.
Defined.

Lemma evict_oldest_takes_first_minimum_witness :
  let self :=
    MemoryCache.Make 300 3
      [("a"%string, MemoryCache.Entry 1%Z 9);
       ("b"%string, MemoryCache.Entry 2%Z 9);
       ("c"%string, MemoryCache.Entry 3%Z 9)]
      [("a"%string, 5); ("b"%string, 2); ("c"%string, 2)] in
  MemoryCache._evict_oldest self =
  Done (MemoryCache.Make 300 3
          (PyDict.del "b" (MemoryCache._cache self))
          (PyDict.del "b" (MemoryCache._access_times self))).
Proof.
  intros self.
  apply (@evict_oldest_takes_first_minimum Z self
           [("a"%string, 5)] "b"%string 2 [("c"%string, 2)]).
  - concrete_wf.
  - reflexivity.
  - intros y [<-|[]]; unfold Qlt; simpl; lia.
  - intros y [<-|[]]; unfold Qle; simpl; lia.
Defined.

Lemma read_entry_survives_next_set_witness :
  let self :=
    MemoryCache.Make 300 2
      [("a"%string, MemoryCache.Entry 1%Z 99);
       ("b"%string, MemoryCache.Entry 2%Z 99)]
      [("a"%string, 1); ("b"%string, 2)] in
  let w := World (fun i => inject_Z (Z.of_nat i + 10)) 0 in
  exists self2 w2,
    MemoryCache.set_at (snd (fst (MemoryCache.get_at self "a" w))) "c" 3%Z
      None (snd (MemoryCache.get_at self "a" w)) = Done (self2, w2) /\
    PyDict.mem "a" (MemoryCache._cache self2) = true /\
    PyDict.mem "b" (MemoryCache._cache self2) = false.
Proof.
  intros self w; do 2 eexists; split; [vm_compute; reflexivity|].
  split; [|reflexivity].
  eapply (@read_entry_survives_next_set Z self "a"%string
            (MemoryCache.Entry 1%Z 99) "b"%string 2 w "c"%string 3%Z None).
  - concrete_wf.
  - reflexivity.
  - unfold Qle; simpl; lia.
  - discriminate.
  - reflexivity.
  - unfold Qlt; simpl; lia.
  - vm_compute; reflexivity.
Defined.

Lemma get_leaves_other_keys_witness :
  let self :=
    MemoryCache.Make 300 2
      [("a"%string, MemoryCache.Entry 1%Z 5);
       ("b"%string, MemoryCache.Entry 2%Z 99)]
      [("a"%string, 1); ("b"%string, 2)] in
  let w := World (fun _ => 50) 0 in
  PyDict.get "b" (MemoryCache._cache (snd (fst (MemoryCache.get_at self "a" w))))
    = Some (MemoryCache.Entry 2%Z 99) /\
  PyDict.get "b"
    (MemoryCache._access_times (snd (fst (MemoryCache.get_at self "a" w))))
    = Some 2.
Proof.
  intros self w.
  apply (@get_leaves_other_keys Z self "a"%string "b"%string w).
  discriminate.
Defined.

Lemma ttl_against_is_expired_witness :
  fst (MemoryCache.ttl (MemoryCache.Entry 1%Z 5) (World (fun _ => 50) 0)) = 0
  /\ fst (MemoryCache.ttl (MemoryCache.Entry 1%Z 5) (World (fun _ => 2) 0))
     == 5 - 2.
Proof.
  split.
  - apply (proj1 (proj2 (@ttl_against_is_expired Z
                           (MemoryCache.Entry 1%Z 5)
                           (World (fun _ => 50) 0)))); reflexivity.
  - apply (proj2 (proj2 (@ttl_against_is_expired Z
                           (MemoryCache.Entry 1%Z 5)
                           (World (fun _ => 2) 0)))); reflexivity.
Defined.

(** ** RetryHandler: success path, bounds on calls and on delays *)

Section RetryMore.
Import RetryHandler.
Variables (St Val Exc : Type).
Variable func : St -> (Val + Exc) * St.
Variable is_Exception : Exc -> bool.
Variable py_hash : Q -> Z.

Local Abbreviation loop := (loop func is_Exception py_hash).
Local Abbreviation retry := (retry func is_Exception py_hash).
Local Abbreviation event := (event Val Exc).

Implicit Types (tr : list event) (self : t).

Lemma sleeps_app tr tr' : sleeps (tr ++ tr') = (sleeps tr + sleeps tr')%nat.
Proof. unfold sleeps; rewrite filter_app, length_app; reflexivity. Qed.



Lemma loop_calls_bounded self : forall rem attempt last s w tr,
  (attempt + Z.of_nat rem = max_retries self + 1)%Z -> (1 <= rem)%nat ->
  (calls tr + 1 <= calls (trace (loop self rem attempt last s w tr)))%nat /\
  (calls (trace (loop self rem attempt last s w tr)) <= calls tr + rem)%nat /\
  (sleeps (trace (loop self rem attempt last s w tr)) + calls tr + 1
   = sleeps tr + calls (trace (loop self rem attempt last s w tr)))%nat.
Proof.
  induction rem as [|rem IH]; intros attempt last s w tr Hrem Hpos; [lia|].
  simpl; destruct (func s) as [[v|e] s']; simpl.
  - rewrite calls_app, sleeps_app; unfold calls, sleeps; simpl; lia.
  - destruct (is_Exception e); simpl.
    + destruct (attempt =? max_retries self)%Z eqn:E; simpl.
      * rewrite calls_app, sleeps_app; unfold calls, sleeps; simpl; lia.
      * apply Z.eqb_neq in E.
        match goal with
        | |- context [RetryHandler.loop _ _ _ self rem ?a ?l ?s0 ?w0 ?t0] =>
            destruct (IH a l s0 w0 t0) as (H1 & H2 & H3); [lia | lia |]
        end.
        rewrite !calls_app, !sleeps_app in *.
        unfold calls, sleeps in *; simpl in *; lia.
    + rewrite calls_app, sleeps_app; unfold calls, sleeps; simpl; lia.
Qed.

(** Whatever the operation does, with [max_retries >= 0] it is invoked at
    least once and at most [max_retries + 1] times, and [retry] sleeps
    exactly once between two invocations: never before the first and never
    after the last. *)
Theorem retry_calls_bounded self s w :
  (0 <= max_retries self)%Z ->
  (1 <= calls (trace (retry self s w)))%nat /\
  (Z.of_nat (calls (trace (retry self s w))) <= max_retries self + 1)%Z /\
  (sleeps (trace (retry self s w)) + 1 = calls (trace (retry self s w)))%nat.
Proof.
  intros Hm; unfold RetryHandler.retry.
  destruct (@loop_calls_bounded self (Z.to_nat (max_retries self + 1)) 0%Z
              None s w []) as (H1 & H2 & H3); try lia.
  unfold calls, sleeps in *; simpl in *; lia.
Qed.



End RetryMore.


Lemma retry_calls_bounded_witness :
  let h := RetryHandler.Make 3 1 60 in
  let op := fun n : nat => (@inr unit nat n, S n) in
  let r := RetryHandler.retry op (fun e => negb (Nat.eqb e 1))
             (fun _ => 0%Z) h 0%nat
             (World (fun i => inject_Z (Z.of_nat i)) 0) in
  (1 <= RetryHandler.calls (RetryHandler.trace r))%nat /\
  (Z.of_nat (RetryHandler.calls (RetryHandler.trace r)) <= 3 + 1)%Z /\
  (RetryHandler.sleeps (RetryHandler.trace r) + 1
   = RetryHandler.calls (RetryHandler.trace r))%nat.
Proof.
  intros h op r.
  apply (@retry_calls_bounded nat unit nat op (fun e => negb (Nat.eqb e 1))
           (fun _ => 0%Z) h).
  simpl; lia.
Defined.


(** ** HTTPClientHelper.parse_rate_limit: when it answers [None] *)

Section ParseRateLimitMore.
Import HTTPClientHelper.
Variable int_of_str : string -> option Z.
Variable float_of_str : string -> option Q.

Lemma parse_rate_limit_none_malformed headers :
  parse_rate_limit int_of_str float_of_str headers = None ->
  malformed int_of_str float_of_str headers.
Proof.
  unfold parse_rate_limit, headers_get, malformed.
  destruct (PyDict.get "x-ratelimit-limit" headers) as [l|]; simpl.
  - destruct (int_of_str l) eqn:El; [|intros _; left; eauto].
    destruct (PyDict.get "x-ratelimit-remaining" headers) as [r|]; simpl.
    + destruct (int_of_str r) eqn:Er; [|intros _; right; left; eauto].
      destruct (PyDict.get "x-ratelimit-reset" headers) as [t|]; simpl;
        [|discriminate].
      destruct (float_of_str t) eqn:Et; [discriminate|].
      intros _; right; right; eauto.
    + destruct (PyDict.get "x-ratelimit-reset" headers) as [t|]; simpl;
        [|discriminate].
      destruct (float_of_str t) eqn:Et; [discriminate|].
      intros _; right; right; eauto.
  - destruct (PyDict.get "x-ratelimit-remaining" headers) as [r|]; simpl.
    + destruct (int_of_str r) eqn:Er; [|intros _; right; left; eauto].
      destruct (PyDict.get "x-ratelimit-reset" headers) as [t|]; simpl;
        [|discriminate].
      destruct (float_of_str t) eqn:Et; [discriminate|].
      intros _; right; right; eauto.
    + destruct (PyDict.get "x-ratelimit-reset" headers) as [t|]; simpl;
        [|discriminate].
      destruct (float_of_str t) eqn:Et; [discriminate|].
      intros _; right; right; eauto.
Qed.

(** [parse_rate_limit] answers [None] exactly when one of the three
    headers is present with a text that [int] or [float] refuses; a missing
    header never makes it answer [None] but reads as 0.  Every record it
    returns has [used = limit - remaining]. *)
Theorem parse_rate_limit_none_iff_malformed headers :
  (parse_rate_limit int_of_str float_of_str headers = None
   <-> malformed int_of_str float_of_str headers) /\
  (forall info,
     parse_rate_limit int_of_str float_of_str headers = Some info ->
     info_used info = (info_limit info - info_remaining info)%Z /\
     (PyDict.get "x-ratelimit-limit" headers = None ->
      info_limit info = 0%Z) /\
     (PyDict.get "x-ratelimit-remaining" headers = None ->
      info_remaining info = 0%Z) /\
     (PyDict.get "x-ratelimit-reset" headers = None ->
      info_reset info = 0)).
Proof.
  split; [split; [apply parse_rate_limit_none_malformed
                 |apply parse_rate_limit_not_numeric]|];
    unfold parse_rate_limit, headers_get, malformed.
  - intros info.
    destruct (PyDict.get "x-ratelimit-limit" headers) as [l|]; simpl;
      [destruct (int_of_str l); [|discriminate]|];
      (destruct (PyDict.get "x-ratelimit-remaining" headers) as [r|]; simpl;
       [destruct (int_of_str r); [|discriminate]|]);
      (destruct (PyDict.get "x-ratelimit-reset" headers) as [t|]; simpl;
       [destruct (float_of_str t); [|discriminate]|]);
      intros [= <-]; simpl; repeat split; auto; discriminate.
Qed.

End ParseRateLimitMore.

Lemma parse_rate_limit_none_iff_malformed_witness :
  let parse := HTTPClientHelper.parse_rate_limit
                 HTTPClientHelper.decimal_int HTTPClientHelper.decimal_float in
  parse [("x-ratelimit-limit", "sixty")]%string = None /\
  info_remaining (Info 60 0 0 60) = 0%Z.
Proof.
  intros parse; split.
  - apply (proj1 (@parse_rate_limit_none_iff_malformed
                    HTTPClientHelper.decimal_int
                    HTTPClientHelper.decimal_float
                    [("x-ratelimit-limit", "sixty")]%string)).
    left; exists "sixty"%string; split; reflexivity.
  - apply (proj2 (@parse_rate_limit_none_iff_malformed
                    HTTPClientHelper.decimal_int
                    HTTPClientHelper.decimal_float
                    [("x-ratelimit-limit", "60")]%string)
             (Info 60 0 0 60) eq_refl).
    reflexivity.
Defined.

(** ** The client: cache key and rate-limit check *)

Section ClientFacts.
Import Client.

Lemma set_set_same (A : Type) k (v : A) (d : PyDict.dict A) :
  PyDict.set k v (PyDict.set k v d) = PyDict.set k v d.
Proof.
  induction d as [|[k' v'] d IH]; simpl.
  - rewrite String.eqb_refl; reflexivity.
  - destruct (String.eqb k k') eqn:E; simpl; rewrite E; congruence.
Qed.

Lemma set_nonempty (A : Type) k (v : A) (d : PyDict.dict A) :
  exists x d', PyDict.set k v d = x :: d'.
Proof.
  destruct d as [|[k' v'] d]; simpl; [eauto|].
  destruct (String.eqb k k'); eauto.
Qed.

(** The key [_make_request] computes with [_get_cache_key], after it has
    added the API key to the parameters, is the key under which
    [cache.get] and [cache.set] file the same request. *)
Theorem client_cache_key_is_cache_key api_key endpoint params :
  let p := _add_api_key api_key params in
  _get_cache_key api_key endpoint (Some p)
  = MemoryCache._generate_key endpoint (Some p).
Proof.
  intros p; unfold _get_cache_key, MemoryCache._generate_key.
  destruct (set_nonempty "api_key" (Json.JStr api_key)
              match params with Some d => d | None => [] end)
    as (x & d' & E).
  unfold p, _add_api_key in *; rewrite E, <- E, set_set_same.
  reflexivity.
Qed.

Variable int_of_str : string -> option Z.
Variable float_of_str : string -> option Q.
Variable fromtimestamp_ok : Q -> bool.

(** A response without the [x-ratelimit-remaining] header is taken for an
    exhausted quota: when its other two rate-limit headers are absent or
    convert, and the reset instant can be formatted for the log line,
    [_check_rate_limit] stores a record with [remaining = 0] and raises
    [RateLimitError]. *)
Theorem check_rate_limit_without_remaining_header response current info :
  PyDict.get "x-ratelimit-remaining" (headers response) = None ->
  HTTPClientHelper.parse_rate_limit int_of_str float_of_str
    (headers response) = Some info ->
  fromtimestamp_ok (info_reset info) = true ->
  info_remaining info = 0%Z /\
  _check_rate_limit int_of_str float_of_str fromtimestamp_ok response current
    = (Some info, inr (Error (RateLimitError "Rate limit exceeded"))).
Proof.
  intros Hr Hp Hf.
  assert (H0 : info_remaining info = 0%Z).
  { revert Hp; unfold HTTPClientHelper.parse_rate_limit,
                      HTTPClientHelper.headers_get; rewrite Hr; simpl.
    destruct (HTTPClientHelper.to_int _ _); [|discriminate].
    destruct (HTTPClientHelper.to_float _ _); [|discriminate].
    intros [= <-]; reflexivity. }
  split; [exact H0|].
  unfold _check_rate_limit; rewrite Hp, Hf, H0; reflexivity.
Qed.

Local Abbreviation parse :=
  (HTTPClientHelper.parse_rate_limit int_of_str float_of_str).
Local Abbreviation check_rate_limit :=
  (_check_rate_limit int_of_str float_of_str fromtimestamp_ok).
Local Abbreviation handle_error :=
  (_handle_error int_of_str float_of_str fromtimestamp_ok).
Local Abbreviation execute_request :=
  (_execute_request int_of_str float_of_str fromtimestamp_ok).

(** When the rate-limit check lets a response through. *)
Lemma check_rate_limit_passes response current :
  snd (check_rate_limit response current) = inl tt <->
  (parse (headers response) = None \/
   exists info, parse (headers response) = Some info /\
                fromtimestamp_ok (info_reset info) = true /\
                (0 < info_remaining info)%Z).
Proof.
  unfold _check_rate_limit.
  destruct (parse (headers response)) as [info|]; simpl.
  - destruct (fromtimestamp_ok (info_reset info)) eqn:Hf; simpl.
    + destruct (info_remaining info <=? 0)%Z eqn:Hr; simpl.
      * apply Z.leb_le in Hr; split; [discriminate|].
        intros [H|(i & [= <-] & _ & H)]; [discriminate | lia].
      * apply Z.leb_gt in Hr; split; [|reflexivity].
        intros _; right; exists info; auto.
    + split; [discriminate|].
      intros [H|(i & [= <-] & H & _)]; congruence.
  - split; auto.
Qed.

(** When the rate-limit check raises its [RateLimitError]. *)
Lemma check_rate_limit_raises response current :
  snd (check_rate_limit response current)
    = inr (Error (RateLimitError "Rate limit exceeded")) <->
  exists info, parse (headers response) = Some info /\
               fromtimestamp_ok (info_reset info) = true /\
               (info_remaining info <= 0)%Z.
Proof.
  unfold _check_rate_limit.
  destruct (parse (headers response)) as [info|]; simpl.
  - destruct (fromtimestamp_ok (info_reset info)) eqn:Hf; simpl.
    + destruct (info_remaining info <=? 0)%Z eqn:Hr; simpl.
      * apply Z.leb_le in Hr; split; [|reflexivity].
        intros _; exists info; auto.
      * apply Z.leb_gt in Hr; split; [discriminate|].
        intros (i & [= <-] & _ & H); lia.
    + split; [discriminate|].
      intros (i & [= <-] & H & _); congruence.
  - split; [discriminate|]; intros (i & H & _); discriminate.
Qed.

(** The error [_handle_error] builds from the status code is never the one
    the rate-limit check raises: its message goes on after the colon. *)
Lemma handle_error_builds_other response current e :
  snd (handle_error response current) = inl e ->
  e <> RateLimitError "Rate limit exceeded".
Proof.
  unfold _handle_error.
  destruct (check_rate_limit response current) as [info [[]|x]]; simpl;
    [|discriminate].
  destruct (HTTPClientHelper.get_error_message (text response)) as [m|];
    simpl; [|discriminate].
  intros [= <-].
  destruct (status_code response =? 401)%Z; [discriminate|].
  destruct (status_code response =? 404)%Z; [discriminate|].
  destruct (status_code response =? 429)%Z; [simpl; discriminate|].
  destruct ((500 <=? status_code response)
            && (status_code response <? 600))%Z; discriminate.
Qed.

Lemma handle_error_raises response current x :
  snd (handle_error response current) = inr x ->
  snd (check_rate_limit response current) = inr x \/
  (snd (check_rate_limit response current) = inl tt /\ x = Undetermined).
Proof.
  unfold _handle_error.
  destruct (check_rate_limit response current) as [info [[]|y]]; simpl;
    [|intros [= <-]; auto].
  destruct (HTTPClientHelper.get_error_message (text response)) as [m|];
    simpl; [discriminate|].
  intros [= <-]; auto.
Qed.

(** [_execute_request] hands the response back exactly when the status is
    below 400 and the rate-limit headers either do not parse or show a
    positive [remaining] (with a reset instant that can be formatted).  In
    every other case it raises. *)
Theorem execute_request_returns_iff response current r :
  snd (_execute_request int_of_str float_of_str fromtimestamp_ok
         response current) = inl r <->
  r = response /\ (status_code response < 400)%Z /\
  (HTTPClientHelper.malformed int_of_str float_of_str (headers response) \/
   exists info,
     HTTPClientHelper.parse_rate_limit int_of_str float_of_str
       (headers response) = Some info /\
     fromtimestamp_ok (info_reset info) = true /\
     (0 < info_remaining info)%Z).
Proof.
  assert (Hm : parse (headers response) = None <->
               HTTPClientHelper.malformed int_of_str float_of_str
                 (headers response)).
  { split; [apply parse_rate_limit_none_malformed
           |apply parse_rate_limit_not_numeric]. }
  rewrite <- Hm, <- (check_rate_limit_passes response current).
  unfold _execute_request.
  destruct (400 <=? status_code response)%Z eqn:Hs.
  - apply Z.leb_le in Hs.
    destruct (handle_error response current) as [info [e|x]]; simpl;
      (split; [discriminate | intros (_ & H & _); lia]).
  - apply Z.leb_gt in Hs.
    destruct (check_rate_limit response current) as [info [[]|x]]; simpl.
    + split; [intros [= <-]; auto | intros (-> & _); reflexivity].
    + split; [discriminate | intros (_ & _ & H); discriminate].
Qed.

(** [_execute_request] raises [RateLimitError("Rate limit exceeded")]
    exactly when the headers parse with [remaining <= 0] (and a reset
    instant that can be formatted), whatever the status code and the body:
    the error that [_handle_error] would build from a 401, a 404 or a 500
    is then never seen. *)
Theorem rate_limit_exceeded_iff_exhausted response current :
  snd (_execute_request int_of_str float_of_str fromtimestamp_ok
         response current)
    = inr (Error (RateLimitError "Rate limit exceeded")) <->
  exists info,
    HTTPClientHelper.parse_rate_limit int_of_str float_of_str
      (headers response) = Some info /\
    fromtimestamp_ok (info_reset info) = true /\
    (info_remaining info <= 0)%Z.
Proof.
  rewrite <- (check_rate_limit_raises response current).
  unfold _execute_request.
  destruct (400 <=? status_code response)%Z.
  - pose proof (@handle_error_builds_other response current) as Hb.
    pose proof (@handle_error_raises response current) as Hr.
    destruct (handle_error response current) as [info [e|x]] eqn:Hh;
      simpl in *.
    + split.
      * intros [= ->]; exfalso; exact (Hb _ eq_refl eq_refl).
      * intros Hc; revert Hh; unfold _handle_error.
        destruct (check_rate_limit response current) as [i [[]|y]];
          simpl in *; [discriminate Hc|discriminate].
    + destruct (Hr _ eq_refl) as [Hc|[Hc ->]].
      * rewrite Hc; split; intros [= ->]; reflexivity.
      * rewrite Hc; split; discriminate.
  - destruct (check_rate_limit response current) as [info [[]|x]]; simpl.
    + split; discriminate.
    + split; intros [= ->]; reflexivity.
Qed.

Variable py_hash : Q -> Z.



End ClientFacts.

Lemma check_rate_limit_without_remaining_header_witness :
  info_remaining (Info 0 0 0 0) = 0%Z /\
  Client._check_rate_limit HTTPClientHelper.decimal_int
    HTTPClientHelper.decimal_float (fun _ => true)
    (Client.Build_Response 200
       [("content-type", "application/json")]%string "{}") None
  = (Some (Info 0 0 0 0),
     inr (Client.Error (Client.RateLimitError "Rate limit exceeded"))).
Proof.
  apply check_rate_limit_without_remaining_header; reflexivity.
Defined.


(** A 404 with requests left: the error built from the status code and
    the [message] field of the body. *)
Example execute_request_not_found :
  Client._execute_request HTTPClientHelper.decimal_int
    HTTPClientHelper.decimal_float (fun _ => true)
    (Client.Build_Response 404
       [("x-ratelimit-limit", "60"); ("x-ratelimit-remaining", "5");
        ("x-ratelimit-reset", "100")]%string
       ("{" ++ Json.quote "message" ++ ": " ++ Json.quote "Not Found" ++ "}"))
    None
  = (Some (Info 60 5 100 55),
     inr (Client.Error
            (Client.NotFoundError "Resource not found: Not Found"))).
Proof. vm_compute; reflexivity. Qed.

(** A 401 with no request left: the rate-limit error, not the
    authentication error. *)
Example execute_request_unauthorized_exhausted :
  Client._execute_request HTTPClientHelper.decimal_int
    HTTPClientHelper.decimal_float (fun _ => true)
    (Client.Build_Response 401
       [("x-ratelimit-limit", "60"); ("x-ratelimit-remaining", "0");
        ("x-ratelimit-reset", "100")]%string
       ("{" ++ Json.quote "message" ++ ": " ++ Json.quote "Bad key" ++ "}"))
    None
  = (Some (Info 60 0 100 60),
     inr (Client.Error (Client.RateLimitError "Rate limit exceeded"))).
Proof. vm_compute; reflexivity. Qed.

(** A 200 without rate-limit headers is not handed back. *)
Example execute_request_ok_without_headers :
  Client._execute_request HTTPClientHelper.decimal_int
    HTTPClientHelper.decimal_float (fun _ => true)
    (Client.Build_Response 200 [] "[]") None
  = (Some (Info 0 0 0 0),
     inr (Client.Error (Client.RateLimitError "Rate limit exceeded"))).
Proof. vm_compute; reflexivity. Qed.

(** A 503 with an HTML body. *)
Example execute_request_server_error :
  Client._execute_request HTTPClientHelper.decimal_int
    HTTPClientHelper.decimal_float (fun _ => true)
    (Client.Build_Response 503
       [("x-ratelimit-limit", "60"); ("x-ratelimit-remaining", "59");
        ("x-ratelimit-reset", "100")]%string
       "<html>down</html>")
    None
  = (Some (Info 60 59 100 1),
     inr (Client.Error
            (Client.ServerError "Server error (503): <html>down</html>"))).
Proof. vm_compute; reflexivity. Qed.

(** ** sanitize_package_name and validate_platform *)

Section StringFacts.
Import PyStr.
Local Open Scope string_scope.




Lemma app_not_empty (a : string) (c : ascii) : a ++ String c "" <> "".
Proof. destruct a; discriminate. Qed.








Lemma is_space_lower_char (c : ascii) :
  is_space (lower_char c) = is_space c.
Proof.
  destruct c as [[] [] [] [] [] [] [] []]; reflexivity.
Qed.

Lemma lower_char_idem (c : ascii) : lower_char (lower_char c) = lower_char c.
Proof.
  destruct c as [[] [] [] [] [] [] [] []]; reflexivity.
Qed.

Lemma has_space_lower (s : string) : has_space (lower s) = has_space s.
Proof.
  induction s as [|c s IH]; simpl; auto.
  rewrite is_space_lower_char, IH; reflexivity.
Qed.

Lemma lower_idem (s : string) : lower (lower s) = lower s.
Proof.
  induction s as [|c s IH]; simpl; auto.
  rewrite lower_char_idem, IH; reflexivity.
Qed.

(** [validate_platform] looks only at the lower-cased name, and it does
    not trim: a name with a whitespace character anywhere, also at either
    end, is rejected. *)
Theorem validate_platform_case_and_space (platform : string) :
  validate_platform (lower platform) = validate_platform platform /\
  (has_space platform = true -> validate_platform platform = false).
Proof.
  unfold validate_platform; rewrite lower_idem; split; [reflexivity|].
  intros Hsp; rewrite <- has_space_lower in Hsp.
  destruct (existsb (String.eqb (lower platform)) valid_platforms) eqn:E;
    [|reflexivity].
  apply existsb_exists in E as (n & Hin & Heq).
  apply String.eqb_eq in Heq; rewrite Heq in Hsp.
  assert (Hall : forallb (fun p => negb (has_space p)) valid_platforms = true)
    by reflexivity.
  rewrite forallb_forall in Hall; specialize (Hall n Hin).
  rewrite Hsp in Hall; discriminate.
Qed.

End StringFacts.

Lemma validate_platform_case_and_space_witness :
  validate_platform " npm " = false.
Proof.
  apply (proj2 (validate_platform_case_and_space " npm ")); reflexivity.
Defined.

(** ** Several tasks on one RateLimiter: exclusion and progress *)

Section TaskMore.
Import Tasks.

(** Mutual exclusion: in every state the tasks can reach, at most one task
    is inside the waiting loop of [acquire]: while one sleeps there, no
    other task does. *)
Theorem one_task_in_the_loop sys i n tp :
  reachable sys ->
  nth_error (tasks sys) i = Some (Sleeping n tp) ->
  forall j m tq, j <> i -> nth_error (tasks sys) j <> Some (Sleeping m tq).
Proof.
  intros Hr Hi j m tq Hne Hj.
  pose proof (reachable_lock_invariant Hr) as Hinv.
  assert (Hli : lock sys = Some i) by (apply Hinv; eauto).
  assert (Hlj : lock sys = Some j) by (apply Hinv; eauto).
  congruence.
Qed.

(** No deadlock: in every state the tasks can reach, as long as some task
    has not finished its call, there is a task that can run whatever the
    clock reads: the one sleeping in the loop if there is one, otherwise
    any caller, for the lock is then free. *)
Theorem some_task_can_run sys i t :
  reachable sys ->
  nth_error (tasks sys) i = Some t ->
  (exists n, t = Calling n) \/ (exists n tp, t = Sleeping n tp) ->
  exists j, forall now, resume sys j now <> None.
Proof.
  intros Hr Hi Ht; pose proof (reachable_lock_invariant Hr) as Hinv.
  destruct (lock sys) as [h|] eqn:Hl.
  - destruct (proj1 (Hinv h) Hl) as (n & tp & Hh).
    exists h; intros now; unfold resume; rewrite Hh; discriminate.
  - destruct Ht as [(n & ->)|(n & tp & ->)].
    + exists i; intros now; unfold resume; rewrite Hi, Hl; discriminate.
    + exists i; intros now; unfold resume; rewrite Hi; discriminate.
Qed.

End TaskMore.

Lemma one_task_in_the_loop_witness :
  let sys1 :=
    Tasks.System (RateLimiter.Make 2 60 1 0) (Some 0%nat)
                 [Tasks.Sleeping 2 (0 - 0); Tasks.Calling 1] in
  nth_error (Tasks.tasks sys1) 1 <> Some (Tasks.Sleeping 1 0).
Proof.
  intros sys1.
  apply (@one_task_in_the_loop sys1 0%nat 2%Z (0 - 0));
    [|reflexivity|discriminate].
  apply (@Tasks.reach_resume
           (Tasks.initial (RateLimiter.Make 2 60 1 0) [2; 1]%Z) 0%nat 0);
    [apply Tasks.reach_initial | reflexivity].
Defined.

Lemma some_task_can_run_witness :
  let sys1 :=
    Tasks.System (RateLimiter.Make 2 60 1 0) (Some 0%nat)
                 [Tasks.Sleeping 2 (0 - 0); Tasks.Calling 1] in
  exists j, forall now, Tasks.resume sys1 j now <> None.
Proof.
  intros sys1.
  apply (@some_task_can_run sys1 1%nat (Tasks.Calling 1)).
  - apply (@Tasks.reach_resume
             (Tasks.initial (RateLimiter.Make 2 60 1 0) [2; 1]%Z) 0%nat 0);
      [apply Tasks.reach_initial | reflexivity].
  - reflexivity.
  - left; eauto.
Defined.

(** ** MemoryCache: overwriting in a full cache *)

Section CacheOverwrite.
Import MemoryCache.
Variable V : Type.
Implicit Types (self : t V) (key : string) (w : world).

Lemma length_set_present (A : Type) k (v : A) (d : PyDict.dict A) :
  In k (PyDict.keys d) -> List.length (PyDict.set k v d) = List.length d.
Proof.
  intros H; rewrite <- (length_map fst (PyDict.set k v d)).
  change (map fst (PyDict.set k v d)) with (PyDict.keys (PyDict.set k v d)).
  rewrite keys_set_present by assumption.
  apply length_map.
Qed.

(** [set] checks the size before it looks whether the key is stored: in a
    full cache, writing again to a stored key whose entry is not the
    oldest evicts the oldest entry all the same, and the cache is left one
    entry short of [max_size]. *)
Theorem overwrite_in_full_cache_evicts self key v ttl w pre k0 t0 post :
  wf self -> size self = max_size self ->
  PyDict.mem key (_cache self) = true ->
  _access_times self = pre ++ (k0, t0) :: post ->
  (forall y, In y pre -> t0 < snd y) ->
  (forall y, In y post -> t0 <= snd y) ->
  k0 <> key ->
  exists self',
    set_at self key v ttl w = Done (self', World (clock w) (S (S (ticks w))))
    /\ size self' = (max_size self - 1)%Z /\
    PyDict.mem k0 (_cache self') = false /\
    PyDict.get key (_cache self') =
      Some (Entry v (clock w (ticks w)
                     + inject_Z (ttl_or_default ttl self))).
Proof.
  intros Hwf Hsz Hkey Ha Hpre Hpost Hne.
  pose proof (@evict_oldest_first_min V self pre k0 t0 post Hwf Ha Hpre Hpost)
    as Hev.
  assert (Hk0 : In k0 (PyDict.keys (_cache self))).
  { apply Hwf; rewrite Ha; unfold PyDict.keys; rewrite map_app, in_app_iff.
    right; simpl; auto. }
  apply mem_true_iff in Hkey.
  assert (Hkey' : In key (PyDict.keys (PyDict.del k0 (_cache self)))).
  { apply in_keys_del; split; auto. }
  unfold set_at; unfold size in Hsz; rewrite Hsz.
  replace (max_size self >=? max_size self)%Z with true
    by (symmetry; apply Z.geb_le; lia).
  rewrite Hev; simpl.
  eexists; split; [reflexivity|]; unfold size; simpl.
  rewrite length_set_present by assumption.
  pose proof (@length_del _ k0 (_cache self) (proj1 Hwf) Hk0) as Hlen.
  repeat split.
  - lia.
  - apply mem_false_iff; rewrite in_keys_set, in_keys_del.
    intros [E|[_ E]]; congruence.
  - apply get_set_same.
Qed.

End CacheOverwrite.

Lemma overwrite_in_full_cache_evicts_witness :
  let self :=
    MemoryCache.Make 300 2
      [("a"%string, MemoryCache.Entry 1%Z 99);
       ("b"%string, MemoryCache.Entry 2%Z 99)]
      [("a"%string, 1); ("b"%string, 2)] in
  let w := World (fun i => inject_Z (Z.of_nat i + 10)) 0 in
  exists self',
    MemoryCache.set_at self "b" 5%Z None w = Done (self', World (clock w) 2)
    /\ MemoryCache.size self' = (2 - 1)%Z /\
    PyDict.mem "a" (MemoryCache._cache self') = false /\
    PyDict.get "b" (MemoryCache._cache self') =
      Some (MemoryCache.Entry 5%Z (clock w 0%nat + inject_Z 300)).
Proof.
  intros self w.
  apply (@overwrite_in_full_cache_evicts Z self "b"%string 5%Z None w
           [] "a"%string 1 [("b"%string, 2)]).
  - concrete_wf.
  - reflexivity.
  - reflexivity.
  - reflexivity.
  - intros y [].
  - intros y [<-|[]]; unfold Qle; simpl; lia.
  - discriminate.
Defined.

(** ** RateLimiter: the burst a new limiter allows *)

Section LimiterBurst.
Import RateLimiter.

Lemma refill_keeps_tokens self now self' :
  (tokens self <= limit self)%Z -> last_refill self <= now ->
  (0 <= limit self)%Z ->
  refill self now = Done self' -> (tokens self <= tokens self')%Z.
Proof.
  intros Hcap Hnow Hl; unfold refill.
  assert (Htp : 0 <= now - last_refill self).
  { unfold Qminus; rewrite <- Qle_minus_iff; exact Hnow. }
  destruct (Qle_bool _ _) eqn:E.
  - intros [= <-]; simpl; lia.
  - destruct (window_seconds self =? 0)%Z; [discriminate|].
    intros [= <-]; simpl.
    pose proof (py_int_nonneg (refill_ratio_nonneg _ Htp E Hl)); lia.
Qed.

Lemma refill_done_forward self now :
  last_refill self <= now -> exists self', refill self now = Done self'.
Proof.
  intros Hnow; unfold refill.
  assert (Htp : 0 <= now - last_refill self).
  { unfold Qminus; rewrite <- Qle_minus_iff; exact Hnow. }
  destruct (Qle_bool _ _) eqn:E; [eauto|].
  destruct (window_seconds self =? 0)%Z eqn:E0; [|eauto].
  apply Z.eqb_eq in E0; rewrite E0 in E.
  apply Qle_bool_iff in Htp; change (inject_Z 0) with 0 in E; congruence.
Qed.

Lemma acquire_eq fuel self n w :
  acquire fuel self n w =
  match refill self (clock w (ticks w)) with
  | Done self' =>
      wait fuel self' n (clock w (ticks w) - last_refill self)
           (World (clock w) (S (ticks w))) [EvRefill (tokens self')]
  | Raised e => Raised e
  | Pending => Pending
  end.
Proof. reflexivity. Qed.

Lemma burst_from k : forall self w,
  monotone (clock w) -> not_ahead self w ->
  (tokens self <= limit self)%Z -> (Z.of_nat k <= tokens self)%Z ->
  exists self' w' tr,
    acquire_all 0 self (repeat 1%Z k) w = Done (self', w', tr) /\
    Forall no_sleep tr /\ (tokens self - Z.of_nat k <= tokens self')%Z.
Proof.
  induction k as [|k IH]; intros self w Hc Ha Hcap Hk.
  - simpl; do 3 eexists; split; [reflexivity|]; split; [constructor | lia].
  - cbn [repeat acquire_all]; rewrite acquire_eq.
    assert (Hnow : last_refill self <= clock w (ticks w)) by (apply Ha; lia).
    destruct (@refill_done_forward self _ Hnow) as (s1 & R); rewrite R.
    destruct (refill_capped _ _ R) as (Hl1 & _ & Hlr & Hc1).
    pose proof (@refill_keeps_tokens self _ s1 Hcap Hnow ltac:(lia) R) as Hge.
    rewrite wait_enough by lia.
    destruct (IH (consume s1 1) (World (clock w) (S (ticks w))))
      as (s2 & w2 & tr2 & Hrun & Hns & Htok); simpl; auto; try lia.
    + intros i Hi; simpl in *; rewrite Hlr; apply monotone_le; auto; lia.
    + rewrite Hrun; do 3 eexists; split; [reflexivity|].
      split; [repeat constructor; exact Hns | simpl in Htok; lia].
Qed.

(** Burst: under a clock that never goes backwards, the first [limit]
    calls [acquire()] on a new limiter all return at once, however close
    together they come: none of them sleeps. *)
Theorem new_limiter_allows_a_burst (lim window : Z) (c : nat -> Q) (k : nat) :
  monotone c -> (Z.of_nat k <= lim)%Z ->
  exists self' w' tr,
    (let (l0, w0) := init lim window (World c 0) in
     acquire_all 0 l0 (repeat 1%Z k) w0) = Done (self', w', tr) /\
    Forall no_sleep tr /\ (lim - Z.of_nat k <= tokens self')%Z.
Proof.
  intros Hc Hk; simpl.
  apply burst_from; simpl; auto; try lia.
  intros i Hi; simpl in *; apply monotone_le; auto; lia.
Qed.

End LimiterBurst.

Lemma new_limiter_allows_a_burst_witness :
  exists self' w' tr,
    (let (l0, w0) := RateLimiter.init 3 60 (World (fun _ => 5) 0) in
     RateLimiter.acquire_all 0 l0 (repeat 1%Z 3) w0) = Done (self', w', tr) /\
    Forall RateLimiter.no_sleep tr /\
    (3 - Z.of_nat 3 <= RateLimiter.tokens self')%Z.
Proof.
  apply (@new_limiter_allows_a_burst 3 60 (fun _ => 5) 3%nat);
    [intros i; apply Qle_refl | simpl; lia].
Defined.

(** ** RetryHandler: what is not retried *)

Section RetryNotCaught.
Import RetryHandler.
Variables (St Val Exc : Type).
Variable func : St -> (Val + Exc) * St.
Variable is_Exception : Exc -> bool.
Variable py_hash : Q -> Z.

(** An object that is not an instance of [Exception] (a cancellation, a
    keyboard interrupt) is not retried: with [max_retries >= 0], when the
    first invocation raises one, [retry] lets it through after that single
    invocation, without sleeping. *)
Theorem retry_lets_base_exceptions_through self s w e :
  (0 <= max_retries self)%Z ->
  fst (func s) = inr e -> is_Exception e = false ->
  result (retry func is_Exception py_hash self s w) = Thrown e /\
  trace (retry func is_Exception py_hash self s w) = [ECall (inr e)] /\
  final_state (retry func is_Exception py_hash self s w) = snd (func s).
Proof.
  intros Hm He Hx; unfold retry.
  destruct (Z.to_nat (max_retries self + 1)) as [|rem] eqn:E; [lia|].
  simpl; destruct (func s) as [r s']; simpl in He; subst r.
  rewrite Hx; auto.
Qed.

End RetryNotCaught.

Lemma retry_lets_base_exceptions_through_witness :
  let h := RetryHandler.Make 3 1 60 in
  let op := fun n : nat => (@inr unit nat n, S n) in
  let r := RetryHandler.retry op (fun e => negb (Nat.eqb e 0))
             (fun _ => 0%Z) h 0%nat
             (World (fun i => inject_Z (Z.of_nat i)) 0) in
  RetryHandler.result r = RetryHandler.Thrown 0%nat /\
  RetryHandler.trace r = [RetryHandler.ECall (inr 0%nat)] /\
  RetryHandler.final_state r = 1%nat.
Proof.
  intros h op r.
  apply (@retry_lets_base_exceptions_through nat unit nat op
           (fun e => negb (Nat.eqb e 0)) (fun _ => 0%Z) h 0%nat);
    [simpl; lia | reflexivity | reflexivity].
Defined.
